(** * Tic-Tac-Toe with a minimax opponent: a shallow embedding of [script.js]

    The class [TicTacToe] of [script.js] keeps a 9-cell board (a JavaScript
    array of the strings [''], ['X'] and ['O']), the player to move, an
    activity flag and the game mode.  The computer's move is found by an
    exhaustive minimax search that writes trial marks into the very array it
    is given and erases them again.

    The embedding keeps the data as the program has it: cells are JavaScript
    values (a string, or [undefined] for a read outside the array), the board
    is a list updated by index, and the search threads the array through the
    recursion, so that what the caller sees after the call is part of the
    result.  Recursion of the search is bounded by a fuel argument. *)

From Stdlib Require Import ZArith String List Bool Lia.
From stdpp Require Import base option list.

Module TicTacToe.

(** ** JavaScript values stored in the board *)

(** A cell read gives a string, or [undefined] when the index is outside the
    array. *)
Inductive value : Type :=
  | Undefined
  | Str (s : string).

(** [v === w] on these values. *)
Definition strict_eq (v w : value) : bool :=
  match v, w with
  | Undefined, Undefined => true
  | Str a, Str b => String.eqb a b
  | _, _ => false
  end.

Abbreviation Board := (list value).

(** [board[i]]: [undefined] outside the array. *)
Definition arr_get (b : Board) (i : nat) : value :=
  default Undefined (b !! i).

(** [board[i] = v]: an in-place write; a write past the end extends the
    array, the cells in between reading as [undefined]. *)
Definition arr_set (b : Board) (i : nat) (v : value) : Board :=
  if i <? length b then <[i := v]> b
  else b ++ replicate (i - length b) Undefined ++ [v].

(** [Array(9).fill('')] *)
Definition emptyBoard : Board := replicate 9 (Str "").

(** [this.winningConditions]: rows, columns, diagonals. *)
Definition winningConditions : list (nat * nat * nat) :=
  [ (0, 1, 2); (3, 4, 5); (6, 7, 8);
    (0, 3, 6); (1, 4, 7); (2, 5, 8);
    (0, 4, 8); (2, 4, 6) ].

(** ** [checkWinState(board, player)] *)

Fixpoint checkWinState_from (conds : list (nat * nat * nat))
    (b : Board) (player : string) : bool :=
  match conds with
  | [] => false
  | (a, b', c) :: rest =>
      if strict_eq (arr_get b a) (Str player)
         && strict_eq (arr_get b b') (Str player)
         && strict_eq (arr_get b c) (Str player)
      then true
      else checkWinState_from rest b player
  end.

Definition checkWinState (b : Board) (player : string) : bool :=
  checkWinState_from winningConditions b player.

(** ** Outcomes of running the search *)

(** A call either returns, throws a [TypeError] (a property read on
    [undefined]), or exhausts the fuel of the model. *)
Inductive run (A : Type) : Type :=
  | Done (a : A)
  | TypeError
  | OutOfFuel.
Arguments Done {A} a.
Arguments TypeError {A}.
Arguments OutOfFuel {A}.

Definition bind {A B : Type} (m : run A) (k : A → run B) : run B :=
  match m with
  | Done a => k a
  | TypeError => TypeError
  | OutOfFuel => OutOfFuel
  end.

Notation "x ←! m ; k" := (bind m (λ x, k))
  (at level 100, m at next level, right associativity, only parsing).

(** The objects [minimax] returns: [{ score }] at a leaf and
    [{ index, score }] at an inner node. *)
Record move : Type := Move { index : option nat; score : Z }.

(** [newBoard.map((val, idx) => val === '' ? idx : null)
            .filter(val => val !== null)] *)
Definition availSpots (newBoard : Board) : list nat :=
  omap id
    (imap (λ idx val, if strict_eq val (Str "") then Some idx else None)
          newBoard).

(** The two selection loops over [moves]; [i] is the loop counter,
    [bestMove] is [undefined] ([None]) until a move beats the sentinel. *)
Fixpoint chooseMax (moves : list move) (i : nat)
    (bestScore : Z) (bestMove : option nat) : option nat :=
  match moves with
  | [] => bestMove
  | m :: rest =>
      if (score m >? bestScore)%Z
      then chooseMax rest (S i) (score m) (Some i)
      else chooseMax rest (S i) bestScore bestMove
  end.

Fixpoint chooseMin (moves : list move) (i : nat)
    (bestScore : Z) (bestMove : option nat) : option nat :=
  match moves with
  | [] => bestMove
  | m :: rest =>
      if (score m <? bestScore)%Z
      then chooseMin rest (S i) (score m) (Some i)
      else chooseMin rest (S i) bestScore bestMove
  end.

(** [moves[bestMove]]: [undefined] when [bestMove] is. *)
Definition moveAt (moves : list move) (bestMove : option nat) : option move :=
  match bestMove with
  | None => None
  | Some k => moves !! k
  end.

(** Search through a list of cells that stops at the first answer. *)
Fixpoint someSpot (f : nat → bool) (spots : list nat) : bool :=
  match spots with
  | [] => false
  | i :: rest => if f i then true else someSpot f rest
  end.

Fixpoint everySpot (f : nat → bool) (spots : list nat) : bool :=
  match spots with
  | [] => true
  | i :: rest => if f i then everySpot f rest else false
  end.

(** The three scores a finished game can have. *)
Definition outcomeScore (z : Z) : Prop :=
  z = (-10)%Z ∨ z = 0%Z ∨ z = 10%Z.

Section Search.

(** [this.humanPlayer] and [this.aiPlayer] *)
Variables humanPlayer aiPlayer : string.

(** The loop over [availSpots] of [minimax]: write the trial mark, search
    the position for the other side, erase the mark, push the move.
    [recur] is the recursive call; the board it hands back is the array as
    the callee left it. *)
Fixpoint tryMoves (recur : Board → string → run (option move * Board))
    (player : string) (spots : list nat) (newBoard : Board)
    (moves : list move) : run (list move * Board) :=
  match spots with
  | [] => Done (moves, newBoard)
  | spot :: rest =>
      let tried := arr_set newBoard spot (Str player) in
      r ←! recur tried
             (if String.eqb player aiPlayer then humanPlayer else aiPlayer);
      match r with
      | (None, _) => TypeError
      | (Some result, after) =>
          let mv := Move (Some spot) (score result) in
          let undone := arr_set after spot (Str "") in
          tryMoves recur player rest undone (moves ++ [mv])
      end
  end.

(** [minimax(newBoard, player)]: the returned pair is the value of the
    call and the array after it. *)
Fixpoint minimax (fuel : nat) (newBoard : Board) (player : string)
    : run (option move * Board) :=
  match fuel with
  | O => OutOfFuel
  | S fuel' =>
      let spots := availSpots newBoard in
      if checkWinState newBoard humanPlayer then
        Done (Some (Move None (-10)), newBoard)
      else if checkWinState newBoard aiPlayer then
        Done (Some (Move None 10), newBoard)
      else if Nat.eqb (length spots) 0 then
        Done (Some (Move None 0), newBoard)
      else
        r ←! tryMoves (minimax fuel') player spots newBoard [];
        let '(moves, after) := r in
        let bestMove :=
          if String.eqb player aiPlayer
          then chooseMax moves 0 (-10000) None
          else chooseMin moves 0 10000 None in
        Done (moveAt moves bestMove, after)
  end.

(** The player searched for after [player] has tried a cell. *)
Definition opponent (player : string) : string :=
  if String.eqb player aiPlayer then humanPlayer else aiPlayer.

(** The score [minimax] returns for a position, read off a run with fuel
    for every empty cell ([0] if the run does not return a move). *)
Definition scoreAt (b : Board) (player : string) : Z :=
  match minimax (S (length (availSpots b))) b player with
  | Done (Some mv, _) => score mv
  | _ => 0%Z
  end.

(** The score of the position reached when [player] marks cell [i]. *)
Definition childScore (b : Board) (player : string) (i : nat) : Z :=
  scoreAt (arr_set b i (Str player)) (opponent player).

(** The array [moves] at the end of the loop of [minimax]: one entry per
    empty cell, in ascending order, scored on the board with just that cell
    marked. *)
Definition childMoves (b : Board) (player : string) : list move :=
  (λ i, Move (Some i) (childScore b player i)) <$> availSpots b.

(** The selection loop [minimax] runs for [player]. *)
Definition choose (player : string) (moves : list move) : option nat :=
  if String.eqb player aiPlayer
  then chooseMax moves 0 (-10000) None
  else chooseMin moves 0 10000 None.

(** The value of a call of [minimax], written without the threading of the
    array. *)
Definition node (b : Board) (player : string) : option move :=
  if checkWinState b humanPlayer then Some (Move None (-10))
  else if checkWinState b aiPlayer then Some (Move None 10)
  else if Nat.eqb (length (availSpots b)) 0 then Some (Move None 0)
  else moveAt (childMoves b player) (choose player (childMoves b player)).

(** A board on which the search goes on: nobody has a line and a cell is
    empty. *)
Definition nonTerminal (b : Board) : Prop :=
  checkWinState b humanPlayer = false ∧
  checkWinState b aiPlayer = false ∧
  availSpots b ≠ [].

(** A checker for "the computer does not lose from here": the human may
    play any empty cell, the computer needs one good reply.  It is a proof
    device; [holds_sound] relates it to the scores of [minimax]. *)
Fixpoint holds (n : nat) (b : Board) (player : string) : bool :=
  match n with
  | O => false
  | S n' =>
      if checkWinState b humanPlayer then false
      else if checkWinState b aiPlayer then true
      else if Nat.eqb (length (availSpots b)) 0 then true
      else if String.eqb player aiPlayer
      then someSpot (λ i, holds n' (arr_set b i (Str player)) humanPlayer)
                    (availSpots b)
      else everySpot (λ i, holds n' (arr_set b i (Str player)) aiPlayer)
                     (availSpots b)
  end.

End Search.

(** ** The session: the fields of the [TicTacToe] object *)

(** What [checkResult] returns when the game is over: [{ winner, line }] or
    [{ winner: 'Draw' }]. *)
Record result : Type := Result { winner : string; line : option (list nat) }.

(** The fields the game logic reads and writes.  [announced] stands for the
    status line and the modal: it holds the result [handleGameEnd] was given
    (the DOM itself is not modelled). *)
Record game : Type := Game {
  board : Board;
  currentPlayer : string;
  isGameActive : bool;
  gameMode : string;
  humanPlayer : string;
  aiPlayer : string;
  announced : option result
}.

Definition with_board (g : game) (b : Board) : game :=
  Game b (currentPlayer g) (isGameActive g) (gameMode g)
       (humanPlayer g) (aiPlayer g) (announced g).

Definition with_currentPlayer (g : game) (p : string) : game :=
  Game (board g) p (isGameActive g) (gameMode g)
       (humanPlayer g) (aiPlayer g) (announced g).

(** The constructor. *)
Definition newGame : game :=
  Game emptyBoard "X" true "pvp" "X" "O" None.

(** [resetGame()] *)
Definition resetGame (g : game) : game :=
  Game emptyBoard "X" true (gameMode g) (humanPlayer g) (aiPlayer g) None.

(** [setMode(mode)] *)
Definition setMode (mode : string) (g : game) : game :=
  if String.eqb (gameMode g) mode then g
  else resetGame (Game (board g) (currentPlayer g) (isGameActive g) mode
                       (humanPlayer g) (aiPlayer g) (announced g)).

(** The loop of [checkResult]: the first line whose three cells are all
    different from [''] and pairwise [===]. *)
Fixpoint findWinningLine (conds : list (nat * nat * nat)) (b : Board)
    : option (list nat) :=
  match conds with
  | [] => None
  | (a, b', c) :: rest =>
      if strict_eq (arr_get b a) (Str "")
         || strict_eq (arr_get b b') (Str "")
         || strict_eq (arr_get b c) (Str "")
      then findWinningLine rest b
      else if strict_eq (arr_get b a) (arr_get b b')
              && strict_eq (arr_get b b') (arr_get b c)
      then Some [a; b'; c]
      else findWinningLine rest b
  end.

(** [board.includes('')] *)
Definition includesEmpty (b : Board) : bool :=
  existsb (λ v, strict_eq v (Str "")) b.

(** [checkResult()]: [None] is the [null] of a game still in progress. *)
Definition checkResult (g : game) : option result :=
  match findWinningLine winningConditions (board g) with
  | Some l => Some (Result (currentPlayer g) (Some l))
  | None =>
      if negb (includesEmpty (board g)) then Some (Result "Draw" None)
      else None
  end.

(** [handleGameEnd(result)] *)
Definition handleGameEnd (r : result) (g : game) : game :=
  Game (board g) (currentPlayer g) false (gameMode g)
       (humanPlayer g) (aiPlayer g) (Some r).

(** [makeMove(index, player)]: the write into the board, the check of the
    result, and either the end of the game or the change of turn.  The
    writes into the page ([this.cells[index]], the status line) are left
    out. *)
Definition makeMove (idx : nat) (player : string) (g : game) : game :=
  let g1 := with_board g (arr_set (board g) idx (Str player)) in
  match checkResult g1 with
  | Some r => handleGameEnd r g1
  | None =>
      with_currentPlayer g1
        (if String.eqb (currentPlayer g1) "X" then "O" else "X")
  end.

(** What [parseInt] gives for the clicked cell's [data-index]. *)
Inductive number : Type :=
  | NaN
  | Num (z : Z).

(** The array index a number denotes, if any: [board[n]] is [undefined] for
    [NaN] and for negative [n]. *)
Definition cellIndex (n : number) : option nat :=
  match n with
  | NaN => None
  | Num z => if (0 <=? z)%Z then Some (Z.to_nat z) else None
  end.

(** [handleCellClick(e)], with [clickedCellIndex] in place of the event.
    The flag tells whether [makeAiMove] was scheduled with [setTimeout]. *)
Definition handleCellClick (clickedCellIndex : number) (g : game)
    : game * bool :=
  match cellIndex clickedCellIndex with
  | None => (g, false)
  | Some idx =>
      if negb (strict_eq (arr_get (board g) idx) (Str ""))
         || negb (isGameActive g)
      then (g, false)
      else if String.eqb (gameMode g) "pvc"
              && String.eqb (currentPlayer g) (aiPlayer g)
      then (g, false)
      else
        let g1 := makeMove idx (currentPlayer g) g in
        (g1, isGameActive g1 && String.eqb (gameMode g1) "pvc"
             && String.eqb (currentPlayer g1) (aiPlayer g1))
  end.

(** [makeAiMove()]: the search runs on [this.board] itself, so the array it
    leaves behind is the session's board.  Reading [.index] of [undefined],
    and [this.cells[undefined]] in [makeMove], throw. *)
Definition makeAiMove (fuel : nat) (g : game) : run game :=
  if negb (isGameActive g) then Done g
  else
    r ←! minimax (humanPlayer g) (aiPlayer g) fuel (board g) (aiPlayer g);
    match r with
    | (None, _) => TypeError
    | (Some best, after) =>
        match index best with
        | None => TypeError
        | Some bestMoveIndex =>
            Done (makeMove bestMoveIndex (aiPlayer g) (with_board g after))
        end
    end.

(** A click followed by the scheduled reply of the computer, if any.  The
    delay of the timer is not modelled: while the reply is pending it is the
    computer's turn, and [handleCellClick] ignores clicks. *)
Definition clickCell (fuel : nat) (clickedCellIndex : number) (g : game)
    : run game :=
  let '(g1, scheduled) := handleCellClick clickedCellIndex g in
  if scheduled then makeAiMove fuel g1 else Done g1.

(** A whole sequence of clicks. *)
Fixpoint clickCells (fuel : nat) (clicks : list number) (g : game)
    : run game :=
  match clicks with
  | [] => Done g
  | n :: rest => g1 ←! clickCell fuel n g; clickCells fuel rest g1
  end.

(** ** Vocabulary of the statements *)

(** The session after [setMode('pvc')] on a fresh object: the human plays
    ['X'] and opens, the computer plays ['O']. *)
Definition pvcGame : game := setMode "pvc" newGame.

(** The three cells of a line all hold [v]. *)
Definition lineHolds (b : Board) (l : nat * nat * nat) (v : value) : Prop :=
  let '(a, b', c) := l in
  arr_get b a = v ∧ arr_get b b' = v ∧ arr_get b c = v.

(** The test [checkResult] makes on a line: no cell is [''] and the three
    cells are equal. *)
Definition lineCompleted (b : Board) (l : nat * nat * nat) : Prop :=
  let '(a, b', c) := l in
  arr_get b a ≠ Str "" ∧ arr_get b b' ≠ Str "" ∧ arr_get b c ≠ Str "" ∧
  arr_get b a = arr_get b b' ∧ arr_get b b' = arr_get b c.

(** [n] denotes no cell of the board. *)
Definition outOfRange (n : number) (b : Board) : Prop :=
  match n with
  | NaN => True
  | Num z => (z < 0 ∨ Z.of_nat (length b) ≤ z)%Z
  end.

(** The game is over with a draw or a win of the computer. *)
Definition finishedWell (g : game) : Prop :=
  announced g = Some (Result "Draw" None) ∨
  ∃ l, announced g = Some (Result (aiPlayer g) (Some l)).

(** The human player has been announced as the winner. *)
Definition humanWon (g : game) : Prop :=
  ∃ l, announced g = Some (Result (humanPlayer g) l).

(** The invariant of a game against the computer: while the game is on it is
    the human's turn on a 9-cell board without a completed line from which
    the search promises the computer at least a draw; once it is over, the
    announced result is a draw or a win of the computer. *)
Definition computerSafe (g : game) : Prop :=
  gameMode g = "pvc"%string ∧ humanPlayer g = "X"%string ∧
  aiPlayer g = "O"%string ∧
  if isGameActive g
  then currentPlayer g = "X"%string ∧ announced g = None ∧
       findWinningLine winningConditions (board g) = None ∧
       length (board g) = 9 ∧
       (0 ≤ scoreAt "X" "O" (board g) "X")%Z
  else finishedWell g.

(** The board of the example: two ['X'] in the top row, ['O'] in the
    centre. *)
Definition topRowBoard : Board :=
  [Str "X"; Str "X"; Str ""; Str ""; Str "O"; Str ""; Str ""; Str ""; Str ""].

(** A board on which ['X'] holds the top row. *)
Definition topRowOfX : Board :=
  [Str "X"; Str "X"; Str "X"; Str "O"; Str "O"; Str ""; Str ""; Str ""; Str ""].

(** A full board without a completed line. *)
Definition drawnBoard : Board :=
  [Str "X"; Str "O"; Str "X"; Str "X"; Str "O"; Str "O"; Str "O"; Str "X"; Str "X"].

(** A board with marks on the main diagonal only. *)
Definition diagonalBoard : Board :=
  [Str "X"; Str ""; Str ""; Str ""; Str "O"; Str ""; Str ""; Str ""; Str "X"].

(** A board with a single mark, in the centre. *)
Definition centreTaken : Board := arr_set emptyBoard 4 (Str "X").

(** A board on which ['O'] holds the top row. *)
Definition topRowOfO : Board :=
  [Str "O"; Str "O"; Str "O"; Str "X"; Str "X"; Str ""; Str ""; Str ""; Str ""].

(** ** The page: buttons and the timer *)

(** What can happen to the object once [init] has bound the handlers: a
    click on a cell, on the reset button, on the new-game button of the
    modal, on one of the two mode buttons, and the firing of a timer that
    [handleCellClick] has set for [makeAiMove].  (The timer of [showModal]
    only shows the modal.) *)
Inductive event : Type :=
  | CellClick (clickedCellIndex : number)
  | ResetClick
  | NewGameClick
  | PvpClick
  | PvcClick
  | TimerFires.

(** One event on the object and the number of pending [makeAiMove] timers.
    All timers have the same delay, so they fire in the order they were set;
    the callback reads nothing but the object.  A firing with no timer
    pending does not happen and is modelled as a no-op. *)
Definition dispatch (fuel : nat) (ev : event) (s : game * nat)
    : run (game * nat) :=
  let '(g, pending) := s in
  match ev with
  | CellClick n =>
      let '(g1, scheduled) := handleCellClick n g in
      Done (g1, if scheduled then S pending else pending)
  | ResetClick => Done (resetGame g, pending)
  | NewGameClick => Done (resetGame g, pending)
  | PvpClick => Done (setMode "pvp" g, pending)
  | PvcClick => Done (setMode "pvc" g, pending)
  | TimerFires =>
      match pending with
      | O => Done (g, O)
      | S k => g1 ←! makeAiMove fuel g; Done (g1, k)
      end
  end.

Fixpoint dispatchAll (fuel : nat) (evs : list event) (s : game * nat)
    : run (game * nat) :=
  match evs with
  | [] => Done s
  | ev :: rest => s1 ←! dispatch fuel ev s; dispatchAll fuel rest s1
  end.

(** An event of a user who waits for the computer: the timer the event has
    set, if any, fires before the next event. *)
Definition dispatchSettled (fuel : nat) (ev : event) (g : game) : run game :=
  s ←! dispatch fuel ev (g, 0);
  s1 ←! dispatch fuel TimerFires s;
  Done s1.1.

Fixpoint dispatchAllSettled (fuel : nat) (evs : list event) (g : game)
    : run game :=
  match evs with
  | [] => Done g
  | ev :: rest => g1 ←! dispatchSettled fuel ev g; dispatchAllSettled fuel rest g1
  end.

(** Events that play: cell clicks and timer firings. *)
Definition isPlay (ev : event) : Prop :=
  match ev with
  | CellClick _ | TimerFires => True
  | _ => False
  end.

(** The number of cells holding the mark [p]. *)
Definition countMark (b : Board) (p : string) : nat :=
  length (List.filter (λ v, strict_eq v (Str p)) b).

(** A cell of a game in progress: empty or one of the two marks. *)
Definition markedCell (v : value) : Prop :=
  v = Str "" ∨ v = Str "X" ∨ v = Str "O".

(** What every session reached from a fresh object satisfies, whatever the
    order of events: the players' marks, a known mode, a 9-cell board of
    marks, and a flag and an announcement that agree with [checkResult] on
    the board as it is. *)
Definition consistent (g : game) : Prop :=
  humanPlayer g = "X"%string ∧ aiPlayer g = "O"%string ∧
  (gameMode g = "pvp"%string ∨ gameMode g = "pvc"%string) ∧
  (currentPlayer g = "X"%string ∨ currentPlayer g = "O"%string) ∧
  length (board g) = 9 ∧ Forall markedCell (board g) ∧
  if isGameActive g
  then announced g = None ∧ checkResult g = None
  else ∃ r, announced g = Some r ∧ checkResult g = Some r.

(** The marks alternate, ['X'] first: while the game is on, the player to
    move is the one with fewer or as many marks; at the end the current
    player is the one who moved last. *)
Definition turnsAlternate (g : game) : Prop :=
  if isGameActive g
  then (currentPlayer g = "X"%string ∧
        countMark (board g) "X" = countMark (board g) "O") ∨
       (currentPlayer g = "O"%string ∧
        countMark (board g) "X" = S (countMark (board g) "O"))
  else (currentPlayer g = "X"%string ∧
        countMark (board g) "X" = S (countMark (board g) "O")) ∨
       (currentPlayer g = "O"%string ∧
        countMark (board g) "X" = countMark (board g) "O").

(** A reported line is a line of the table and holds the mark of the
    reported winner. *)
Definition winnerHoldsLine (g : game) : Prop :=
  ∀ w l, announced g = Some (Result w (Some l)) →
         ∃ a b' c, l = [a; b'; c] ∧ (a, b', c) ∈ winningConditions ∧
                   lineHolds (board g) (a, b', c) (Str w).

(** What holds in addition when every timer fires before the next event:
    the marks alternate; against the computer it is the human's turn
    whenever the game is on; and a reported line holds the mark of the
    reported winner. *)
Definition fairTurns (g : game) : Prop :=
  turnsAlternate g ∧
  (gameMode g = "pvc"%string → isGameActive g = true →
   currentPlayer g = "X"%string) ∧
  winnerHoldsLine g.

(** The session in which the human is locked out: a single ['O'] on the
    board, the computer to move, no timer pending. *)
Definition lockedOut (i : nat) : game :=
  Game (<[i := Str "O"]> emptyBoard) "O" true "pvc" "X" "O" None.

(** * Facts about the embedding *)

Arguments minimax : simpl never.
Arguments scoreAt : simpl never.
Arguments childScore : simpl never.
Arguments node : simpl never.
Arguments availSpots : simpl never.

(** ** Values and array accesses *)

Lemma strict_eq_true (v w : value) : strict_eq v w = true ↔ v = w.
Proof.
  destruct v as [|a], w as [|c]; simpl; try (split; [discriminate | congruence]).
  - split; reflexivity.
  - rewrite String.eqb_eq. split; congruence.
Qed.

Lemma strict_eq_false (v w : value) : strict_eq v w = false ↔ v ≠ w.
Proof.
  rewrite <- strict_eq_true. destruct (strict_eq v w); split; congruence.
Qed.

Lemma strict_eq_refl (v : value) : strict_eq v v = true.
Proof. apply strict_eq_true. reflexivity. Qed.

Lemma arr_get_Some (b : Board) (i : nat) (v : value) :
  b !! i = Some v → arr_get b i = v.
Proof. intros H. unfold arr_get. rewrite H. reflexivity. Qed.

Lemma arr_get_empty (b : Board) (i : nat) :
  arr_get b i = Str "" ↔ b !! i = Some (Str "").
Proof.
  unfold arr_get. destruct (b !! i) as [v|]; simpl; split; congruence.
Qed.

Lemma arr_set_inside (b : Board) (i : nat) (v : value) :
  i < length b → arr_set b i v = <[i := v]> b.
Proof.
  intros H. unfold arr_set.
  destruct (Nat.ltb_spec i (length b)); [reflexivity | lia].
Qed.

Lemma arr_get_set_eq (b : Board) (i : nat) (v : value) :
  arr_get (arr_set b i v) i = v.
Proof.
  unfold arr_set, arr_get.
  destruct (Nat.ltb_spec i (length b)) as [Hlt | Hge].
  - rewrite list_lookup_insert_eq by assumption. reflexivity.
  - rewrite lookup_app_r by assumption.
    rewrite lookup_app_r by (rewrite length_replicate; lia).
    rewrite length_replicate, Nat.sub_diag. reflexivity.
Qed.

Lemma arr_get_set_ne (b : Board) (i j : nat) (v : value) :
  i ≠ j → arr_get (arr_set b i v) j = arr_get b j.
Proof.
  intros Hne. unfold arr_set, arr_get.
  destruct (Nat.ltb_spec i (length b)) as [Hlt | Hge].
  - rewrite list_lookup_insert_ne by assumption. reflexivity.
  - destruct (Nat.lt_ge_cases j (length b)) as [Hj | Hj].
    + rewrite lookup_app_l by assumption. reflexivity.
    + rewrite (lookup_ge_None_2 b j) by assumption.
      rewrite lookup_app_r by assumption.
      destruct (Nat.lt_ge_cases j i) as [Hji | Hji].
      * rewrite lookup_app_l by (rewrite length_replicate; lia).
        rewrite lookup_replicate_2 by lia. reflexivity.
      * rewrite lookup_app_r by (rewrite length_replicate; lia).
        rewrite length_replicate.
        destruct (j - length b - (i - length b)) as [|k] eqn:E; [lia|].
        reflexivity.
Qed.

(** Erasing a trial mark gives back the array as it was. *)
Lemma arr_set_undo (b : Board) (i : nat) (v : value) :
  b !! i = Some (Str "") →
  arr_set (arr_set b i v) i (Str "") = b.
Proof.
  intros H. pose proof (lookup_lt_Some _ _ _ H) as Hlt.
  rewrite (arr_set_inside b) by assumption.
  rewrite arr_set_inside by (rewrite length_insert; assumption).
  rewrite list_insert_insert_eq. apply list_insert_id. assumption.
Qed.

(** ** The list of empty cells *)

Lemma spots_shift (g h : nat → nat) (l : Board) :
  omap id (imap (λ idx val,
                   if strict_eq val (Str "") then Some (h (g idx)) else None) l)
  = h <$> omap id (imap (λ idx val,
                   if strict_eq val (Str "") then Some (g idx) else None) l).
Proof.
  revert g. induction l as [|v l IH]; intros g; [reflexivity|].
  rewrite !imap_cons. simpl.
  specialize (IH (g ∘ S)). unfold compose in *. simpl in IH.
  destruct (strict_eq v (Str "")); simpl; [f_equal|]; apply IH.
Qed.

Lemma availSpots_nil : availSpots [] = [].
Proof. reflexivity. Qed.

Lemma availSpots_cons (v : value) (b : Board) :
  availSpots (v :: b)
  = (if strict_eq v (Str "") then [0] else []) ++ (S <$> availSpots b).
Proof.
  unfold availSpots. rewrite imap_cons. simpl.
  pose proof (spots_shift (λ n, n) S b) as E. unfold compose.
  destruct (strict_eq v (Str "")); simpl; [f_equal|]; apply E.
Qed.

Lemma elem_of_availSpots (b : Board) (i : nat) :
  i ∈ availSpots b ↔ b !! i = Some (Str "").
Proof.
  revert i. induction b as [|v b IH]; intros i.
  - rewrite availSpots_nil. split; [intros H; inversion H | discriminate].
  - rewrite availSpots_cons, elem_of_app, list_elem_of_fmap.
    destruct i as [|i]; simpl.
    + split.
      * intros [H | (y & Hy & _)]; [|discriminate].
        destruct (strict_eq v (Str "")) eqn:E; [|inversion H].
        apply strict_eq_true in E. congruence.
      * intros H. left. injection H as ->. simpl. constructor.
    + split.
      * intros [H | (y & Hy & Hin)].
        -- destruct (strict_eq v (Str "")); inversion H; subst.
           match goal with H' : _ ∈ [] |- _ => inversion H' end.
        -- injection Hy as ->. apply IH. assumption.
      * intros H. right. exists i. split; [reflexivity | apply IH; assumption].
Qed.

(** The empty cells are listed in ascending order. *)
Lemma availSpots_ascending (b : Board) (j k x y : nat) :
  availSpots b !! j = Some x → availSpots b !! k = Some y → j < k → x < y.
Proof.
  revert j k x y. induction b as [|v b IH]; intros j k x y.
  - rewrite availSpots_nil. discriminate.
  - rewrite availSpots_cons.
    destruct (strict_eq v (Str "")); simpl.
    + destruct j as [|j], k as [|k]; simpl; try lia.
      * intros Hx Hy _. injection Hx as <-.
        rewrite list_lookup_fmap in Hy.
        destruct (availSpots b !! k); simpl in Hy; [|discriminate].
        injection Hy as <-. lia.
      * rewrite !list_lookup_fmap. intros Hx Hy Hlt.
        destruct (availSpots b !! j) as [x'|] eqn:Ex; [|discriminate].
        destruct (availSpots b !! k) as [y'|] eqn:Ey; [|discriminate].
        simpl in *. injection Hx as <-. injection Hy as <-.
        specialize (IH j k x' y' Ex Ey). lia.
    + rewrite !list_lookup_fmap. intros Hx Hy Hlt.
      destruct (availSpots b !! j) as [x'|] eqn:Ex; [|discriminate].
      destruct (availSpots b !! k) as [y'|] eqn:Ey; [|discriminate].
      simpl in *. injection Hx as <-. injection Hy as <-.
      specialize (IH j k x' y' Ex Ey). lia.
Qed.

(** Marking an empty cell leaves one empty cell less. *)
Lemma availSpots_insert_length (b : Board) (i : nat) (p : string) :
  p ≠ ""%string → b !! i = Some (Str "") →
  S (length (availSpots (<[i := Str p]> b))) = length (availSpots b).
Proof.
  intros Hp. revert i. induction b as [|v b IH]; intros i; [discriminate|].
  destruct i as [|i]; simpl.
  - intros H. injection H as ->. rewrite !availSpots_cons.
    assert (strict_eq (Str p) (Str "") = false) as ->
      by (apply strict_eq_false; congruence).
    simpl. reflexivity.
  - intros H. rewrite !availSpots_cons, !length_app, !length_fmap.
    specialize (IH i H). lia.
Qed.

Lemma availSpots_set_length (b : Board) (i : nat) (p : string) :
  p ≠ ""%string → i ∈ availSpots b →
  length (availSpots (arr_set b i (Str p))) < length (availSpots b).
Proof.
  intros Hp Hi. apply elem_of_availSpots in Hi.
  rewrite arr_set_inside by (eapply lookup_lt_Some; eassumption).
  pose proof (availSpots_insert_length b i p Hp Hi). lia.
Qed.

Lemma availSpots_le_length (b : Board) : length (availSpots b) ≤ length b.
Proof.
  induction b as [|v b IH]; [reflexivity|].
  rewrite availSpots_cons, length_app, length_fmap.
  destruct (strict_eq v (Str "")); simpl; lia.
Qed.

(** ** The selection loops *)

Lemma chooseMax_scan (ms : list move) : ∀ (i0 : nat) (s0 : Z) (m0 : option nat),
  (chooseMax ms i0 s0 m0 = m0 ∧ ∀ m, m ∈ ms → (score m ≤ s0)%Z)
  ∨ (∃ k m, chooseMax ms i0 s0 m0 = Some (i0 + k) ∧ ms !! k = Some m ∧
            (s0 < score m)%Z ∧
            (∀ j m', ms !! j = Some m' → (score m' ≤ score m)%Z) ∧
            (∀ j m', j < k → ms !! j = Some m' → (score m' < score m)%Z)).
Proof.
  induction ms as [|m ms IH]; intros i0 s0 m0; simpl.
  - left. split; [reflexivity|]. intros m H. inversion H.
  - rewrite Z.gtb_ltb. destruct (Z.ltb_spec s0 (score m)) as [Hlt | Hge].
    + right. destruct (IH (S i0) (score m) (Some i0))
        as [[E Hall] | (k & m1 & E & Hk & Hs & Hmax & Hfirst)].
      * exists 0, m. rewrite E, Nat.add_0_r.
        refine (conj _ (conj _ (conj _ (conj _ _)))); try assumption.
        -- reflexivity.
        -- reflexivity.
        -- intros [|j] m' Hj; simpl in Hj.
           ++ injection Hj as <-. lia.
           ++ apply Hall. eapply list_elem_of_lookup_2. eassumption.
        -- intros j m' Hj. lia.
      * exists (S k), m1. rewrite E. refine (conj _ (conj _ (conj _ (conj _ _)))).
        -- f_equal. lia.
        -- assumption.
        -- lia.
        -- intros [|j] m' Hj; simpl in Hj.
           ++ injection Hj as <-. lia.
           ++ eapply Hmax. eassumption.
        -- intros [|j] m' Hjk Hj; simpl in Hj.
           ++ injection Hj as <-. lia.
           ++ eapply Hfirst; [|eassumption]. lia.
    + destruct (IH (S i0) s0 m0)
        as [[E Hall] | (k & m1 & E & Hk & Hs & Hmax & Hfirst)].
      * left. split; [assumption|]. intros m' H.
        apply elem_of_cons in H as [-> | H]; [assumption | apply Hall, H].
      * right. exists (S k), m1. rewrite E. refine (conj _ (conj _ (conj _ (conj _ _)))).
        -- f_equal. lia.
        -- assumption.
        -- assumption.
        -- intros [|j] m' Hj; simpl in Hj.
           ++ injection Hj as <-. lia.
           ++ eapply Hmax. eassumption.
        -- intros [|j] m' Hjk Hj; simpl in Hj.
           ++ injection Hj as <-. lia.
           ++ eapply Hfirst; [|eassumption]. lia.
Qed.

Lemma chooseMin_scan (ms : list move) : ∀ (i0 : nat) (s0 : Z) (m0 : option nat),
  (chooseMin ms i0 s0 m0 = m0 ∧ ∀ m, m ∈ ms → (s0 ≤ score m)%Z)
  ∨ (∃ k m, chooseMin ms i0 s0 m0 = Some (i0 + k) ∧ ms !! k = Some m ∧
            (score m < s0)%Z ∧
            (∀ j m', ms !! j = Some m' → (score m ≤ score m')%Z) ∧
            (∀ j m', j < k → ms !! j = Some m' → (score m < score m')%Z)).
Proof.
  induction ms as [|m ms IH]; intros i0 s0 m0; simpl.
  - left. split; [reflexivity|]. intros m H. inversion H.
  - destruct (Z.ltb_spec (score m) s0) as [Hlt | Hge].
    + right. destruct (IH (S i0) (score m) (Some i0))
        as [[E Hall] | (k & m1 & E & Hk & Hs & Hmin & Hfirst)].
      * exists 0, m. rewrite E, Nat.add_0_r.
        refine (conj _ (conj _ (conj _ (conj _ _)))); try assumption.
        -- reflexivity.
        -- reflexivity.
        -- intros [|j] m' Hj; simpl in Hj.
           ++ injection Hj as <-. lia.
           ++ apply Hall. eapply list_elem_of_lookup_2. eassumption.
        -- intros j m' Hj. lia.
      * exists (S k), m1. rewrite E. refine (conj _ (conj _ (conj _ (conj _ _)))).
        -- f_equal. lia.
        -- assumption.
        -- lia.
        -- intros [|j] m' Hj; simpl in Hj.
           ++ injection Hj as <-. lia.
           ++ eapply Hmin. eassumption.
        -- intros [|j] m' Hjk Hj; simpl in Hj.
           ++ injection Hj as <-. lia.
           ++ eapply Hfirst; [|eassumption]. lia.
    + destruct (IH (S i0) s0 m0)
        as [[E Hall] | (k & m1 & E & Hk & Hs & Hmin & Hfirst)].
      * left. split; [assumption|]. intros m' H.
        apply elem_of_cons in H as [-> | H]; [assumption | apply Hall, H].
      * right. exists (S k), m1. rewrite E. refine (conj _ (conj _ (conj _ (conj _ _)))).
        -- f_equal. lia.
        -- assumption.
        -- assumption.
        -- intros [|j] m' Hj; simpl in Hj.
           ++ injection Hj as <-. lia.
           ++ eapply Hmin. eassumption.
        -- intros [|j] m' Hjk Hj; simpl in Hj.
           ++ injection Hj as <-. lia.
           ++ eapply Hfirst; [|eassumption]. lia.
Qed.

(** With every score above the sentinel, the maximising loop ends on the
    first position of the greatest score. *)
Lemma chooseMax_first (ms : list move) :
  ms ≠ [] → (∀ m, m ∈ ms → (-10000 < score m)%Z) →
  ∃ k m, chooseMax ms 0 (-10000) None = Some k ∧ ms !! k = Some m ∧
         (∀ j m', ms !! j = Some m' → (score m' ≤ score m)%Z) ∧
         (∀ j m', j < k → ms !! j = Some m' → (score m' < score m)%Z).
Proof.
  intros Hne Hall.
  destruct (chooseMax_scan ms 0 (-10000) None)
    as [[_ Hle] | (k & m & E & Hk & _ & Hmax & Hfirst)].
  - destruct ms as [|m ms]; [congruence|].
    specialize (Hle m (list_elem_of_here _ _)).
    specialize (Hall m (list_elem_of_here _ _)). lia.
  - exists k, m. auto.
Qed.

Lemma chooseMin_first (ms : list move) :
  ms ≠ [] → (∀ m, m ∈ ms → (score m < 10000)%Z) →
  ∃ k m, chooseMin ms 0 10000 None = Some k ∧ ms !! k = Some m ∧
         (∀ j m', ms !! j = Some m' → (score m ≤ score m')%Z) ∧
         (∀ j m', j < k → ms !! j = Some m' → (score m < score m')%Z).
Proof.
  intros Hne Hall.
  destruct (chooseMin_scan ms 0 10000 None)
    as [[_ Hle] | (k & m & E & Hk & _ & Hmin & Hfirst)].
  - destruct ms as [|m ms]; [congruence|].
    specialize (Hle m (list_elem_of_here _ _)).
    specialize (Hall m (list_elem_of_here _ _)). lia.
  - exists k, m. auto.
Qed.

(** ** The search *)

Section SearchFacts.

Variables human ai : string.
Hypothesis human_mark : human ≠ ""%string.
Hypothesis ai_mark : ai ≠ ""%string.

Lemma opponent_mark (p : string) : opponent human ai p ≠ ""%string.
Proof. unfold opponent. destruct (String.eqb p ai); assumption. Qed.

Lemma minimax_S (f : nat) (b : Board) (p : string) :
  minimax human ai (S f) b p =
  if checkWinState b human then Done (Some (Move None (-10)), b)
  else if checkWinState b ai then Done (Some (Move None 10), b)
  else if Nat.eqb (length (availSpots b)) 0 then Done (Some (Move None 0), b)
  else
    bind (tryMoves human ai (minimax human ai f) p (availSpots b) b [])
         (λ r, let '(moves, after) := r in
               Done (moveAt moves (choose ai p moves), after)).
Proof. reflexivity. Qed.

(** The loop of [minimax], given that every recursive call hands the array
    back as it got it: the array is the caller's again after every trial,
    and [moves] holds one entry per tried cell. *)
Lemma tryMoves_children
    (recur : Board → string → run (option move * Board))
    (p : string) (b : Board) :
  ∀ (spots : list nat) (acc : list move),
    (∀ i, i ∈ spots →
       b !! i = Some (Str "") ∧
       ∃ mv, recur (arr_set b i (Str p)) (opponent human ai p)
             = Done (Some mv, arr_set b i (Str p)) ∧
             score mv = childScore human ai b p i) →
    tryMoves human ai recur p spots b acc
    = Done (acc ++ ((λ i, Move (Some i) (childScore human ai b p i)) <$> spots),
            b).
Proof.
  induction spots as [|i spots IH]; intros acc H.
  - simpl. rewrite app_nil_r. reflexivity.
  - destruct (H i (list_elem_of_here _ _)) as (Hi & mv & E & Hs).
    unfold opponent in E. simpl. rewrite E. simpl.
    rewrite arr_set_undo by assumption.
    rewrite IH.
    + rewrite <- app_assoc, Hs. reflexivity.
    + intros j Hj. apply H. apply list_elem_of_further. assumption.
Qed.

Lemma childMoves_lookup (b : Board) (p : string) (k : nat) (m : move) :
  childMoves human ai b p !! k = Some m →
  ∃ i, availSpots b !! k = Some i ∧
       m = Move (Some i) (childScore human ai b p i).
Proof.
  unfold childMoves. rewrite list_lookup_fmap.
  destruct (availSpots b !! k) as [i|]; simpl; [|discriminate].
  intros H. injection H as <-. exists i. split; reflexivity.
Qed.

Lemma childMoves_elem (b : Board) (p : string) (m : move) :
  m ∈ childMoves human ai b p →
  ∃ i, i ∈ availSpots b ∧ m = Move (Some i) (childScore human ai b p i).
Proof.
  intros H. apply list_elem_of_lookup_1 in H as [k Hk].
  apply childMoves_lookup in Hk as (i & Hi & ->).
  exists i. split; [|reflexivity]. eapply list_elem_of_lookup_2. eassumption.
Qed.

Lemma outcomeScore_bounds (z : Z) :
  outcomeScore z → (-10000 < z < 10000)%Z.
Proof. unfold outcomeScore. lia. Qed.

(** The central fact: with fuel for every empty cell, [minimax] returns the
    value [node] describes and hands the array back unchanged; that value is
    a move object whose score is -10, 0 or 10. *)
Lemma search_value (n : nat) : ∀ (b : Board) (p : string),
  p ≠ ""%string → length (availSpots b) ≤ n →
  (∀ fuel, length (availSpots b) < fuel →
     minimax human ai fuel b p = Done (node human ai b p, b)) ∧
  ∃ mv, node human ai b p = Some mv ∧ outcomeScore (score mv).
Proof.
  induction n as [n IH] using lt_wf_ind. intros b p Hp Hn.
  assert (Hkids : ∀ i, i ∈ availSpots b →
            b !! i = Some (Str "") ∧
            ∃ mv, (∀ fuel, length (availSpots b) ≤ fuel →
                     minimax human ai fuel (arr_set b i (Str p))
                       (opponent human ai p)
                     = Done (Some mv, arr_set b i (Str p))) ∧
                  score mv = childScore human ai b p i ∧
                  outcomeScore (score mv)).
  { intros i Hi. split; [apply elem_of_availSpots; assumption|].
    pose proof (availSpots_set_length b i p Hp Hi) as Hlt.
    destruct (IH (length (availSpots (arr_set b i (Str p)))) ltac:(lia)
                 (arr_set b i (Str p)) (opponent human ai p)
                 (opponent_mark p) ltac:(lia)) as (Hrun & mv & Hnode & Hok).
    exists mv. split; [|split; [|assumption]].
    - intros fuel Hfuel. rewrite Hrun by lia. rewrite Hnode. reflexivity.
    - unfold childScore, scoreAt. rewrite Hrun by lia. rewrite Hnode.
      reflexivity. }
  split.
  - intros [|f] Hf; [lia|]. rewrite minimax_S. unfold node.
    destruct (checkWinState b human); [reflexivity|].
    destruct (checkWinState b ai); [reflexivity|].
    destruct (Nat.eqb (length (availSpots b)) 0); [reflexivity|].
    rewrite tryMoves_children.
    + reflexivity.
    + intros i Hi. destruct (Hkids i Hi) as (Hcell & mv & Hrun & Hs & _).
      split; [assumption|]. exists mv. split; [|assumption].
      apply Hrun. lia.
  - unfold node.
    destruct (checkWinState b human);
      [eexists; split; [reflexivity | left; reflexivity]|].
    destruct (checkWinState b ai);
      [eexists; split; [reflexivity | right; right; reflexivity]|].
    destruct (Nat.eqb_spec (length (availSpots b)) 0) as [E | Hsome];
      [eexists; split; [reflexivity | right; left; reflexivity]|].
    assert (Hne : childMoves human ai b p ≠ []).
    { unfold childMoves. destruct (availSpots b); [simpl in Hsome; lia|].
      discriminate. }
    assert (Hok : ∀ m, m ∈ childMoves human ai b p → outcomeScore (score m)).
    { intros m Hm. apply childMoves_elem in Hm as (i & Hi & ->).
      destruct (Hkids i Hi) as (_ & mv & _ & Hs & Hok). simpl.
      rewrite <- Hs. assumption. }
    unfold choose. destruct (String.eqb p ai).
    + destruct (chooseMax_first (childMoves human ai b p) Hne)
        as (k & m & E & Hk & _).
      { intros m Hm. apply outcomeScore_bounds, Hok, Hm. }
      exists m. rewrite E. simpl. split; [assumption|].
      apply Hok. eapply list_elem_of_lookup_2. eassumption.
    + destruct (chooseMin_first (childMoves human ai b p) Hne)
        as (k & m & E & Hk & _).
      { intros m Hm. apply outcomeScore_bounds, Hok, Hm. }
      exists m. rewrite E. simpl. split; [assumption|].
      apply Hok. eapply list_elem_of_lookup_2. eassumption.
Qed.

Lemma minimax_node (fuel : nat) (b : Board) (p : string) :
  p ≠ ""%string → length (availSpots b) < fuel →
  minimax human ai fuel b p = Done (node human ai b p, b).
Proof.
  intros Hp Hf.
  apply (search_value (length (availSpots b)) b p Hp (Nat.le_refl _)).
  assumption.
Qed.

Lemma node_outcome (b : Board) (p : string) :
  p ≠ ""%string →
  ∃ mv, node human ai b p = Some mv ∧ outcomeScore (score mv).
Proof.
  intros Hp.
  apply (search_value (length (availSpots b)) b p Hp (Nat.le_refl _)).
Qed.

Lemma scoreAt_node (b : Board) (p : string) (mv : move) :
  p ≠ ""%string → node human ai b p = Some mv →
  scoreAt human ai b p = score mv.
Proof.
  intros Hp H. unfold scoreAt.
  rewrite minimax_node by (assumption || lia). rewrite H. reflexivity.
Qed.

Lemma scoreAt_outcome (b : Board) (p : string) :
  p ≠ ""%string → outcomeScore (scoreAt human ai b p).
Proof.
  intros Hp. destruct (node_outcome b p Hp) as (mv & H & Hok).
  rewrite (scoreAt_node b p mv Hp H). assumption.
Qed.

(** Every recursive call of the loop returns a move object and hands back
    the array with just the trial mark in it. *)
Lemma child_run (b : Board) (p : string) (j f : nat) :
  p ≠ ""%string → b !! j = Some (Str "") → length (availSpots b) ≤ f →
  ∃ mv, minimax human ai f (arr_set b j (Str p)) (opponent human ai p)
        = Done (Some mv, arr_set b j (Str p)) ∧
        score mv = childScore human ai b p j.
Proof.
  intros Hp Hj Hf. apply elem_of_availSpots in Hj.
  pose proof (availSpots_set_length b j p Hp Hj) as Hlt.
  destruct (node_outcome (arr_set b j (Str p)) (opponent human ai p)
              (opponent_mark p)) as (mv & Hnode & _).
  exists mv. split.
  - rewrite minimax_node by (apply opponent_mark || lia).
    rewrite Hnode. reflexivity.
  - unfold childScore. symmetry. apply scoreAt_node; [apply opponent_mark|].
    assumption.
Qed.

Lemma tryMoves_run (b : Board) (p : string) (f : nat) :
  p ≠ ""%string → length (availSpots b) ≤ f →
  tryMoves human ai (minimax human ai f) p (availSpots b) b []
  = Done (childMoves human ai b p, b).
Proof.
  intros Hp Hf. rewrite tryMoves_children; [reflexivity|].
  intros i Hi. apply elem_of_availSpots in Hi. split; [assumption|].
  apply child_run; assumption.
Qed.

(** At a board on which the search goes on, the value is the first entry of
    [moves], in ascending order of cells, with the greatest score when the
    computer moves and with the least score otherwise. *)
Lemma node_inner (b : Board) (p : string) :
  p ≠ ""%string → nonTerminal human ai b →
  ∃ i, b !! i = Some (Str "") ∧
       node human ai b p = Some (Move (Some i) (childScore human ai b p i)) ∧
       (p = ai → ∀ j, b !! j = Some (Str "") →
          (childScore human ai b p j ≤ childScore human ai b p i)%Z ∧
          (j < i →
           (childScore human ai b p j < childScore human ai b p i)%Z)) ∧
       (p ≠ ai → ∀ j, b !! j = Some (Str "") →
          (childScore human ai b p i ≤ childScore human ai b p j)%Z ∧
          (j < i →
           (childScore human ai b p i < childScore human ai b p j)%Z)).
Proof.
  intros Hp (Hh & Ha & Hs).
  assert (Hne : childMoves human ai b p ≠ []).
  { unfold childMoves. intros E. apply fmap_nil_inv in E. contradiction. }
  assert (Hok : ∀ m, m ∈ childMoves human ai b p → outcomeScore (score m)).
  { intros m Hm. apply childMoves_elem in Hm as (i & Hi & ->). simpl.
    apply scoreAt_outcome, opponent_mark. }
  assert (Hpos : ∀ j, b !! j = Some (Str "") →
            ∃ kj, availSpots b !! kj = Some j ∧
                  childMoves human ai b p !! kj
                  = Some (Move (Some j) (childScore human ai b p j))).
  { intros j Hj. apply elem_of_availSpots, list_elem_of_lookup_1 in Hj
      as [kj Hkj].
    exists kj. split; [assumption|].
    unfold childMoves. rewrite list_lookup_fmap, Hkj. reflexivity. }
  unfold node. rewrite Hh, Ha.
  assert (Nat.eqb (length (availSpots b)) 0 = false) as ->.
  { apply Nat.eqb_neq. intros E. apply Hs, nil_length_inv, E. }
  unfold choose. destruct (String.eqb_spec p ai) as [Hai | Hai].
  - destruct (chooseMax_first (childMoves human ai b p) Hne)
      as (k & m & E & Hk & Hmax & Hfirst).
    { intros m Hm. apply outcomeScore_bounds, Hok, Hm. }
    destruct (childMoves_lookup b p k m Hk) as (i & Hi & ->).
    exists i. split; [|split; [|split]].
    + apply elem_of_availSpots. eapply list_elem_of_lookup_2. eassumption.
    + rewrite E. simpl. assumption.
    + intros _ j Hj. destruct (Hpos j Hj) as (kj & Hkj & Hmj). split.
      * apply (Hmax kj _ Hmj).
      * intros Hji. destruct (Nat.lt_ge_cases kj k) as [Hlt | Hge].
        -- apply (Hfirst kj _ Hlt Hmj).
        -- destruct (Nat.eq_dec kj k) as [-> | Hneq];
             [assert (i = j) by congruence; lia|].
           pose proof (availSpots_ascending b k kj i j Hi Hkj). lia.
    + intros Hcontra. congruence.
  - destruct (chooseMin_first (childMoves human ai b p) Hne)
      as (k & m & E & Hk & Hmin & Hfirst).
    { intros m Hm. apply outcomeScore_bounds, Hok, Hm. }
    destruct (childMoves_lookup b p k m Hk) as (i & Hi & ->).
    exists i. split; [|split; [|split]].
    + apply elem_of_availSpots. eapply list_elem_of_lookup_2. eassumption.
    + rewrite E. simpl. assumption.
    + intros Hcontra. congruence.
    + intros _ j Hj. destruct (Hpos j Hj) as (kj & Hkj & Hmj). split.
      * apply (Hmin kj _ Hmj).
      * intros Hji. destruct (Nat.lt_ge_cases kj k) as [Hlt | Hge].
        -- apply (Hfirst kj _ Hlt Hmj).
        -- destruct (Nat.eq_dec kj k) as [-> | Hneq];
             [assert (i = j) by congruence; lia|].
           pose proof (availSpots_ascending b k kj i j Hi Hkj). lia.
Qed.

Lemma nonTerminal_node_other (b : Board) (p : string) :
  ¬ nonTerminal human ai b → index <$> node human ai b p = Some None.
Proof.
  intros H. unfold node.
  destruct (checkWinState b human) eqn:Hh; [reflexivity|].
  destruct (checkWinState b ai) eqn:Ha; [reflexivity|].
  destruct (Nat.eqb_spec (length (availSpots b)) 0) as [E | Hsome];
    [reflexivity|].
  exfalso. apply H. repeat split; try assumption.
  intros E. rewrite E in Hsome. simpl in Hsome. lia.
Qed.

(** Whatever the recursive calls are, if each hands its array back as it got
    it, so does the loop. *)
Lemma tryMoves_restores
    (recur : Board → string → run (option move * Board))
    (p : string) (b : Board) :
  (∀ b0 q r b1, recur b0 q = Done (r, b1) → b1 = b0) →
  ∀ (spots : list nat) (acc ms : list move) (b' : Board),
    (∀ i, i ∈ spots → b !! i = Some (Str "")) →
    tryMoves human ai recur p spots b acc = Done (ms, b') → b' = b.
Proof.
  intros Hrec. induction spots as [|i spots IH]; intros acc ms b' Hsp H.
  - simpl in H. injection H as _ <-. reflexivity.
  - simpl in H.
    destruct (recur (arr_set b i (Str p))
                (if String.eqb p ai then human else ai))
      as [[[mv|] after]| |] eqn:E; simpl in H; try discriminate.
    apply Hrec in E. subst after.
    rewrite arr_set_undo in H by (apply Hsp; apply list_elem_of_here).
    eapply IH; [|eassumption].
    intros j Hj. apply Hsp. apply list_elem_of_further. assumption.
Qed.

Lemma minimax_restores (fuel : nat) : ∀ (b : Board) (p : string) r b',
  minimax human ai fuel b p = Done (r, b') → b' = b.
Proof.
  induction fuel as [|f IH]; intros b p r b' H; [discriminate|].
  rewrite minimax_S in H.
  destruct (checkWinState b human); [injection H as _ <-; reflexivity|].
  destruct (checkWinState b ai); [injection H as _ <-; reflexivity|].
  destruct (Nat.eqb (length (availSpots b)) 0);
    [injection H as _ <-; reflexivity|].
  destruct (tryMoves human ai (minimax human ai f) p (availSpots b) b [])
    as [[ms after]| |] eqn:E; simpl in H; try discriminate.
  injection H as _ <-.
  eapply tryMoves_restores; [exact IH | | exact E].
  intros i Hi. apply elem_of_availSpots. assumption.
Qed.

(** ** The checker of safe positions *)

Lemma someSpot_true (f : nat → bool) (spots : list nat) :
  someSpot f spots = true → ∃ i, i ∈ spots ∧ f i = true.
Proof.
  induction spots as [|i spots IH]; simpl; [discriminate|].
  destruct (f i) eqn:E.
  - intros _. exists i. split; [apply list_elem_of_here | assumption].
  - intros H. destruct (IH H) as (j & Hj & Hf). exists j.
    split; [apply list_elem_of_further|]; assumption.
Qed.

Lemma everySpot_true (f : nat → bool) (spots : list nat) :
  everySpot f spots = true → ∀ i, i ∈ spots → f i = true.
Proof.
  induction spots as [|i spots IH]; simpl; intros H j Hj.
  - inversion Hj.
  - destruct (f i) eqn:E; [|discriminate].
    apply elem_of_cons in Hj as [-> | Hj]; [assumption | apply IH; assumption].
Qed.

Lemma scoreAt_inner (b : Board) (p : string) :
  p ≠ ""%string → nonTerminal human ai b →
  ∃ i, b !! i = Some (Str "") ∧
       scoreAt human ai b p = childScore human ai b p i ∧
       (p = ai → ∀ j, b !! j = Some (Str "") →
          (childScore human ai b p j ≤ scoreAt human ai b p)%Z) ∧
       (p ≠ ai → ∀ j, b !! j = Some (Str "") →
          (scoreAt human ai b p ≤ childScore human ai b p j)%Z).
Proof.
  intros Hp Hnt.
  destruct (node_inner b p Hp Hnt) as (i & Hi & Hnode & Hmax & Hmin).
  pose proof (scoreAt_node b p _ Hp Hnode) as E. simpl in E.
  exists i. rewrite E. split; [assumption|]. split; [reflexivity|]. split.
  - intros Hai j Hj. apply (Hmax Hai j Hj).
  - intros Hai j Hj. apply (Hmin Hai j Hj).
Qed.

(** A position the checker accepts has a score of at least 0. *)
Lemma holds_sound (n : nat) : ∀ (b : Board) (p : string),
  p ≠ ""%string → holds human ai n b p = true →
  (0 ≤ scoreAt human ai b p)%Z.
Proof.
  induction n as [|n IH]; intros b p Hp H; [discriminate|].
  simpl in H.
  destruct (checkWinState b human) eqn:Hh; [discriminate|].
  destruct (checkWinState b ai) eqn:Ha.
  { rewrite (scoreAt_node b p (Move None 10) Hp); [simpl; lia|].
    unfold node. rewrite Hh, Ha. reflexivity. }
  destruct (Nat.eqb (length (availSpots b)) 0) eqn:Hs.
  { rewrite (scoreAt_node b p (Move None 0) Hp); [simpl; lia|].
    unfold node. rewrite Hh, Ha, Hs. reflexivity. }
  assert (Hnt : nonTerminal human ai b).
  { repeat split; try assumption. intros E. rewrite E in Hs. discriminate. }
  destruct (scoreAt_inner b p Hp Hnt) as (i & Hi & E & Hmax & Hmin).
  destruct (String.eqb_spec p ai) as [Hai | Hai].
  - apply someSpot_true in H as (j & Hj & Hsafe).
    apply IH in Hsafe; [|assumption].
    apply elem_of_availSpots in Hj. specialize (Hmax Hai j Hj).
    unfold childScore, opponent in Hmax.
    assert (String.eqb p ai = true) as Eb by (apply String.eqb_eq, Hai).
    rewrite Eb in Hmax. lia.
  - pose proof (everySpot_true _ _ H i) as Hsafe.
    rewrite E. unfold childScore, opponent.
    assert (String.eqb p ai = false) as Eb by (apply String.eqb_neq, Hai).
    rewrite Eb. apply IH; [assumption|]. apply Hsafe.
    apply elem_of_availSpots. assumption.
Qed.

Lemma classic_nonTerminal (b : Board) :
  nonTerminal human ai b ∨ ¬ nonTerminal human ai b.
Proof.
  unfold nonTerminal.
  destruct (checkWinState b human); [right; intros (H & _); discriminate|].
  destruct (checkWinState b ai); [right; intros (_ & H & _); discriminate|].
  destruct (availSpots b) as [|i l]; [right; intros (_ & _ & H); congruence|].
  left. repeat split; discriminate.
Qed.

(** ** The claims about the search *)

(** C4: on a board on which the search goes on, [minimax] returns the
    smallest empty cell whose child score is extremal - greatest when the
    mover is the computer, least otherwise - together with that child's
    score; the child scores are those the recursive calls return; and a
    second call on the array the first one left returns the same. *)
Theorem minimax_first_extremal (fuel : nat) (b : Board) (p : string) :
  p ≠ ""%string → length (availSpots b) < fuel → nonTerminal human ai b →
  ∃ i,
    b !! i = Some (Str "") ∧
    minimax human ai fuel b p
    = Done (Some (Move (Some i) (childScore human ai b p i)), b) ∧
    (∀ j, b !! j = Some (Str "") →
       ∃ mv, minimax human ai (fuel - 1) (arr_set b j (Str p))
               (opponent human ai p)
             = Done (Some mv, arr_set b j (Str p)) ∧
             score mv = childScore human ai b p j) ∧
    (p = ai → ∀ j, b !! j = Some (Str "") →
       (childScore human ai b p j ≤ childScore human ai b p i)%Z ∧
       (j < i → (childScore human ai b p j < childScore human ai b p i)%Z)) ∧
    (p ≠ ai → ∀ j, b !! j = Some (Str "") →
       (childScore human ai b p i ≤ childScore human ai b p j)%Z ∧
       (j < i → (childScore human ai b p i < childScore human ai b p j)%Z)) ∧
    (∀ r b', minimax human ai fuel b p = Done (r, b') →
             minimax human ai fuel b' p = Done (r, b')).
Proof.
  intros Hp Hf Hnt.
  destruct (node_inner b p Hp Hnt) as (i & Hi & Hnode & Hmax & Hmin).
  exists i. split; [assumption|]. split; [|split; [|split; [|split]]].
  - rewrite minimax_node by assumption. rewrite Hnode. reflexivity.
  - intros j Hj. apply child_run; [assumption | assumption | lia].
  - assumption.
  - assumption.
  - intros r b' H. pose proof (minimax_restores _ _ _ _ _ H) as ->.
    assumption.
Qed.

(** C9: [minimax] terminates: every recursive call is made on a board with
    fewer empty cells, a board without empty cells is a base case, and so a
    run with more fuel than empty cells returns; on a 9-cell board fuel 10
    is enough. *)
Theorem minimax_terminates (b : Board) (p : string) :
  p ≠ ""%string →
  (∀ i, i ∈ availSpots b →
     length (availSpots (arr_set b i (Str p))) < length (availSpots b)) ∧
  (availSpots b = [] →
   ∀ fuel, 0 < fuel →
     ∃ s, minimax human ai fuel b p = Done (Some (Move None s), b)) ∧
  (∀ fuel, length (availSpots b) < fuel →
     ∃ mv, minimax human ai fuel b p = Done (Some mv, b)) ∧
  (length b = 9 →
   ∀ fuel, 10 ≤ fuel → ∃ mv, minimax human ai fuel b p = Done (Some mv, b)).
Proof.
  intros Hp.
  assert (Hrun : ∀ fuel, length (availSpots b) < fuel →
            ∃ mv, minimax human ai fuel b p = Done (Some mv, b)).
  { intros fuel Hf. destruct (node_outcome b p Hp) as (mv & Hnode & _).
    exists mv. rewrite minimax_node by assumption. rewrite Hnode.
    reflexivity. }
  split; [|split; [|split]].
  - intros i Hi. apply availSpots_set_length; assumption.
  - intros E [|f] Hf; [lia|]. rewrite minimax_S, E. simpl.
    destruct (checkWinState b human); [eexists; reflexivity|].
    destruct (checkWinState b ai); eexists; reflexivity.
  - exact Hrun.
  - intros Hlen fuel Hf. apply Hrun.
    pose proof (availSpots_le_length b). lia.
Qed.

(** C10: the score [minimax] returns is -10, 0 or 10; so is every score in
    [moves], hence strictly between the sentinels -10000 and 10000, and on a
    board on which the search goes on the selection loop ends with
    [bestMove] defined and the value carries a cell index. *)
Theorem minimax_score_range (fuel : nat) (b : Board) (p : string) :
  p ≠ ""%string → length (availSpots b) < fuel →
  ∃ mv,
    minimax human ai fuel b p = Done (Some mv, b) ∧
    outcomeScore (score mv) ∧ (-10000 < score mv < 10000)%Z ∧
    (∀ m, m ∈ childMoves human ai b p →
       outcomeScore (score m) ∧ (-10000 < score m < 10000)%Z) ∧
    (nonTerminal human ai b →
     ∃ k i, choose ai p (childMoves human ai b p) = Some k ∧
            childMoves human ai b p !! k = Some mv ∧
            index mv = Some i).
Proof.
  intros Hp Hf. destruct (node_outcome b p Hp) as (mv & Hnode & Hok).
  exists mv. split; [|split; [assumption|split; [|split]]].
  - rewrite minimax_node by assumption. rewrite Hnode. reflexivity.
  - apply outcomeScore_bounds. assumption.
  - intros m Hm. apply childMoves_elem in Hm as (i & Hi & ->). simpl.
    pose proof (scoreAt_outcome (arr_set b i (Str p)) (opponent human ai p)
                  (opponent_mark p)) as H.
    split; [exact H | apply outcomeScore_bounds, H].
  - intros Hnt. destruct (node_inner b p Hp Hnt) as (i & Hi & Hnode' & _).
    destruct Hnt as (Hh & Ha & Hs).
    unfold node in Hnode. rewrite Hh, Ha in Hnode.
    assert (Nat.eqb (length (availSpots b)) 0 = false) as E.
    { apply Nat.eqb_neq. intros E. apply Hs, nil_length_inv, E. }
    rewrite E in Hnode.
    destruct (choose ai p (childMoves human ai b p)) as [k|] eqn:Ek;
      [|discriminate].
    simpl in Hnode. exists k, i. split; [reflexivity|]. split; [assumption|].
    unfold node in Hnode'. rewrite Hh, Ha, E, Ek in Hnode'. simpl in Hnode'.
    rewrite Hnode in Hnode'. injection Hnode' as ->. reflexivity.
Qed.

End SearchFacts.

(** C3: the base case of [minimax] checks, in this order, a completed line
    of the human player (score -10), then a completed line of the computer
    (score +10), then the absence of empty cells (score 0); on any other
    board the node is scored by recursion: the value is the score the search
    returns for the board with one more mark of the mover. *)
Theorem minimax_base_case_order (human ai : string) (fuel : nat) (b : Board)
    (p : string) :
  0 < fuel →
  (checkWinState b human = true →
   minimax human ai fuel b p = Done (Some (Move None (-10)), b)) ∧
  (checkWinState b human = false → checkWinState b ai = true →
   minimax human ai fuel b p = Done (Some (Move None 10), b)) ∧
  (checkWinState b human = false → checkWinState b ai = false →
   availSpots b = [] →
   minimax human ai fuel b p = Done (Some (Move None 0), b)) ∧
  (human ≠ ""%string → ai ≠ ""%string → p ≠ ""%string →
   length (availSpots b) < fuel → nonTerminal human ai b →
   ∃ i mv,
     b !! i = Some (Str "") ∧
     minimax human ai (fuel - 1) (arr_set b i (Str p)) (opponent human ai p)
     = Done (Some mv, arr_set b i (Str p)) ∧
     minimax human ai fuel b p = Done (Some (Move (Some i) (score mv)), b)).
Proof.
  intros Hfuel. destruct fuel as [|f]; [lia|]. rewrite minimax_S.
  split; [|split; [|split]].
  - intros ->. reflexivity.
  - intros -> ->. reflexivity.
  - intros -> -> ->. reflexivity.
  - intros Hh Ha Hp Hf Hnt. rewrite <- minimax_S.
    destruct (node_inner human ai Hh Ha b p Hp Hnt) as (i & Hi & Hnode & _).
    destruct (child_run human ai Hh Ha b p i f Hp Hi ltac:(lia))
      as (mv & Hrun & Hs).
    exists i, mv. split; [assumption|]. split.
    + replace (S f - 1) with f by lia. assumption.
    + rewrite minimax_node by assumption. rewrite Hnode, Hs. reflexivity.
Qed.

(** C5: after a call of [minimax] the array is what it was before the call,
    whatever the call returns; the call does return when the players' marks
    are not the empty string and there is fuel for every empty cell; and the
    loop leaves the array unchanged as well, each entry of [moves] being the
    score of the caller's board with just that one cell marked. *)
Theorem minimax_restores_board (human ai : string) (fuel : nat) (b : Board)
    (p : string) :
  (∀ r b', minimax human ai fuel b p = Done (r, b') → b' = b) ∧
  (human ≠ ""%string → ai ≠ ""%string → p ≠ ""%string →
   length (availSpots b) < fuel →
   (∃ mv, minimax human ai fuel b p = Done (Some mv, b)) ∧
   tryMoves human ai (minimax human ai (fuel - 1)) p (availSpots b) b []
   = Done ((λ i, Move (Some i)
                   (scoreAt human ai (arr_set b i (Str p))
                      (opponent human ai p))) <$> availSpots b,
           b)).
Proof.
  split.
  - intros r b' H. eapply minimax_restores. eassumption.
  - intros Hh Ha Hp Hf. split.
    + destruct (node_outcome human ai Hh Ha b p Hp) as (mv & Hnode & _).
      exists mv. rewrite minimax_node by assumption. rewrite Hnode.
      reflexivity.
    + apply tryMoves_run; [assumption | assumption | assumption | lia].
Qed.


(** ** Lines *)

Lemma includesEmpty_true (b : Board) : includesEmpty b = true ↔ Str "" ∈ b.
Proof.
  unfold includesEmpty. rewrite existsb_exists. split.
  - intros (v & Hin & Hv). apply strict_eq_true in Hv. subst v.
    apply list_elem_of_In. assumption.
  - intros H. exists (Str ""). split; [apply list_elem_of_In, H|].
    apply strict_eq_refl.
Qed.

Lemma includesEmpty_spots (b : Board) :
  includesEmpty b = true → availSpots b ≠ [].
Proof.
  intros H. apply includesEmpty_true, list_elem_of_lookup_1 in H as [i Hi].
  apply elem_of_availSpots in Hi. intros E. rewrite E in Hi. inversion Hi.
Qed.

Lemma findWinningLine_tail (a b' c : nat) (rest : list (nat * nat * nat))
    (b : Board) :
  findWinningLine ((a, b', c) :: rest) b = None →
  findWinningLine rest b = None.
Proof.
  simpl. destruct (_ || _); [auto|]. destruct (_ && _); [discriminate | auto].
Qed.

(** The test of [checkResult] on one line, as a proposition. *)
Lemma findWinningLine_head (a b' c : nat) (rest : list (nat * nat * nat))
    (b : Board) :
  (lineCompleted b (a, b', c) ∧
   findWinningLine ((a, b', c) :: rest) b = Some [a; b'; c])
  ∨ (¬ lineCompleted b (a, b', c) ∧
     findWinningLine ((a, b', c) :: rest) b = findWinningLine rest b).
Proof.
  simpl.
  destruct (strict_eq (arr_get b a) (Str "")) eqn:Ea;
    [right; apply strict_eq_true in Ea; split; [tauto | reflexivity]|].
  destruct (strict_eq (arr_get b b') (Str "")) eqn:Eb;
    [right; apply strict_eq_true in Eb; split; [tauto | reflexivity]|].
  destruct (strict_eq (arr_get b c) (Str "")) eqn:Ec;
    [right; apply strict_eq_true in Ec; split; [tauto | reflexivity]|].
  apply strict_eq_false in Ea, Eb, Ec. simpl.
  destruct (strict_eq (arr_get b a) (arr_get b b')) eqn:Eab;
    [|right; apply strict_eq_false in Eab; split; [tauto | reflexivity]].
  destruct (strict_eq (arr_get b b') (arr_get b c)) eqn:Ebc;
    [|right; apply strict_eq_false in Ebc; split; [tauto | reflexivity]].
  apply strict_eq_true in Eab, Ebc. left. simpl. tauto.
Qed.

Lemma checkWinState_from_true (conds : list (nat * nat * nat)) (b : Board)
    (p : string) :
  checkWinState_from conds b p = true ↔
  ∃ l, l ∈ conds ∧ lineHolds b l (Str p).
Proof.
  induction conds as [|[[a b'] c] rest IH]; simpl.
  - split; [discriminate | intros (l & H & _); inversion H].
  - destruct (strict_eq (arr_get b a) (Str p)
              && strict_eq (arr_get b b') (Str p)
              && strict_eq (arr_get b c) (Str p)) eqn:E.
    + split; [intros _ | reflexivity].
      apply andb_prop in E as [E Ec]. apply andb_prop in E as [Ea Eb].
      apply strict_eq_true in Ea, Eb, Ec.
      exists (a, b', c). split; [apply list_elem_of_here | simpl; tauto].
    + rewrite IH. split.
      * intros (l & Hl & H). exists l.
        split; [apply list_elem_of_further|]; assumption.
      * intros (l & Hl & H). apply elem_of_cons in Hl as [-> | Hl].
        -- simpl in H. destruct H as (Ha & Hb & Hc).
           rewrite Ha, Hb, Hc, strict_eq_refl in E. discriminate.
        -- exists l. split; assumption.
Qed.

Lemma findWinningLine_None (conds : list (nat * nat * nat)) (b : Board) :
  findWinningLine conds b = None ↔ ∀ l, l ∈ conds → ¬ lineCompleted b l.
Proof.
  induction conds as [|[[a b'] c] rest IH].
  - split; [intros _ l H; inversion H | reflexivity].
  - destruct (findWinningLine_head a b' c rest b) as [[Hc E] | [Hc E]];
      rewrite E.
    + split; [discriminate|]. intros H. exfalso.
      apply (H (a, b', c)); [apply list_elem_of_here | assumption].
    + rewrite IH. split.
      * intros H l Hl. apply elem_of_cons in Hl as [-> | Hl];
          [assumption | apply H, Hl].
      * intros H l Hl. apply H. apply list_elem_of_further. assumption.
Qed.

(** The line [checkResult] reports is the first completed line of the
    table. *)
Lemma findWinningLine_Some (conds : list (nat * nat * nat)) (b : Board)
    (line : list nat) :
  findWinningLine conds b = Some line ↔
  ∃ pre a b' c post,
    conds = pre ++ (a, b', c) :: post ∧ line = [a; b'; c] ∧
    lineCompleted b (a, b', c) ∧ ∀ l, l ∈ pre → ¬ lineCompleted b l.
Proof.
  induction conds as [|[[a b'] c] rest IH].
  - split; [discriminate|]. intros (pre & a & b' & c & post & E & _).
    destruct pre; discriminate.
  - destruct (findWinningLine_head a b' c rest b) as [[Hc E] | [Hc E]];
      rewrite E.
    + split.
      * intros H. injection H as <-. exists [], a, b', c, rest.
        split; [reflexivity|]. split; [reflexivity|]. split; [assumption|].
        intros l Hl. inversion Hl.
      * intros (pre & a1 & b1 & c1 & post & Econds & -> & Hc1 & Hpre).
        destruct pre as [|l pre].
        -- simpl in Econds. injection Econds as <- <- <- _. reflexivity.
        -- simpl in Econds. injection Econds as <- _. exfalso.
           apply (Hpre (a, b', c)); [apply list_elem_of_here | assumption].
    + rewrite IH. split.
      * intros (pre & a1 & b1 & c1 & post & -> & -> & Hc1 & Hpre).
        exists ((a, b', c) :: pre), a1, b1, c1, post.
        split; [reflexivity|]. split; [reflexivity|]. split; [assumption|].
        intros l Hl. apply elem_of_cons in Hl as [-> | Hl];
          [assumption | apply Hpre, Hl].
      * intros (pre & a1 & b1 & c1 & post & Econds & -> & Hc1 & Hpre).
        destruct pre as [|l pre].
        -- simpl in Econds. injection Econds as <- <- <- _. contradiction.
        -- simpl in Econds. injection Econds as <- ->.
           exists pre, a1, b1, c1, post. split; [reflexivity|]. split; [reflexivity|]. split; [assumption|].
           intros l Hl. apply Hpre. apply list_elem_of_further. assumption.
Qed.

Lemma lineHolds_completed (b : Board) (l : nat * nat * nat) (p : string) :
  p ≠ ""%string → lineHolds b l (Str p) → lineCompleted b l.
Proof.
  destruct l as [[a b'] c]. simpl. intros Hp (Ha & Hb & Hc).
  rewrite Ha, Hb, Hc. repeat split; congruence.
Qed.

(** Without a completed line nobody has won in the sense of
    [checkWinState]. *)
Lemma no_line_no_winner (conds : list (nat * nat * nat)) (b : Board)
    (p : string) :
  p ≠ ""%string → findWinningLine conds b = None →
  checkWinState_from conds b p = false.
Proof.
  intros Hp H. destruct (checkWinState_from conds b p) eqn:E; [|reflexivity].
  apply checkWinState_from_true in E as (l & Hl & Hh).
  exfalso. rewrite findWinningLine_None in H.
  apply (H l Hl). eapply lineHolds_completed; eassumption.
Qed.

(** A line completed by writing one cell holds the mark just written. *)
Lemma new_line_is_movers (b : Board) (i : nat) (p : string)
    (l : nat * nat * nat) :
  ¬ lineCompleted b l → lineCompleted (arr_set b i (Str p)) l →
  lineHolds (arr_set b i (Str p)) l (Str p).
Proof.
  destruct l as [[a b'] c]. simpl. intros Hold (Ha & Hb & Hc & Hab & Hbc).
  destruct (Nat.eq_dec i a) as [<- | Nia].
  { rewrite arr_get_set_eq in *. repeat split; congruence. }
  destruct (Nat.eq_dec i b') as [<- | Nib].
  { rewrite arr_get_set_eq in *. repeat split; congruence. }
  destruct (Nat.eq_dec i c) as [<- | Nic].
  { rewrite arr_get_set_eq in *. repeat split; congruence. }
  rewrite !arr_get_set_ne in * by assumption. tauto.
Qed.

Lemma new_line_wins (b : Board) (i : nat) (p : string) (line : list nat) :
  findWinningLine winningConditions b = None →
  findWinningLine winningConditions (arr_set b i (Str p)) = Some line →
  checkWinState (arr_set b i (Str p)) p = true.
Proof.
  intros Hold Hnew. apply findWinningLine_Some in Hnew
    as (pre & a & b' & c & post & E & _ & Hc & _).
  rewrite findWinningLine_None in Hold.
  apply checkWinState_from_true. exists (a, b', c).
  assert (Hin : (a, b', c) ∈ winningConditions).
  { rewrite E. apply elem_of_app. right. apply list_elem_of_here. }
  split; [assumption|]. apply new_line_is_movers; [|assumption].
  apply Hold. assumption.
Qed.

(** ** The claims about the rules *)

(** C2, as stated, fails: with ['O'] holding the top row and ['X'] the
    current player, [checkResult] reports a win of ['X'] on the top row,
    although no line holds three ['X']. *)
Lemma checkResult_credits_current_player :
  let g := Game topRowOfO "X" true "pvp" "X" "O" None in
  checkResult g = Some (Result "X" (Some [0; 1; 2])) ∧
  ¬ ((∃ line, checkResult g = Some (Result (currentPlayer g) (Some line)))
     ↔ (∃ l, l ∈ winningConditions ∧
             lineHolds (board g) l (Str (currentPlayer g)))).
Proof.
  intros g. split; [reflexivity|]. intros [H _].
  destruct H as (l & Hl & Hh); [exists [0; 1; 2]; reflexivity|].
  assert (checkWinState topRowOfO "X" = true) as E
    by (apply checkWinState_from_true; exists l; split; assumption).
  vm_compute in E. discriminate.
Qed.

(** C2, amended: [checkResult] reports a win of the current player exactly
    when some line of the table has three cells that are not [''] and are
    equal, whichever mark they hold, and the reported line is the first such
    line of the table; without such a line the result is a draw when no cell
    is [''] and [null] otherwise.  When every completed line holds the
    current player's mark, a win is reported exactly when some line holds
    that mark in its three cells. *)
Theorem checkResult_outcome (g : game) :
  (∀ line,
     checkResult g = Some (Result (currentPlayer g) (Some line)) ↔
     ∃ pre a b' c post,
       winningConditions = pre ++ (a, b', c) :: post ∧ line = [a; b'; c] ∧
       lineCompleted (board g) (a, b', c) ∧
       ∀ l, l ∈ pre → ¬ lineCompleted (board g) l) ∧
  ((∃ line, checkResult g = Some (Result (currentPlayer g) (Some line))) ↔
   ∃ l, l ∈ winningConditions ∧ lineCompleted (board g) l) ∧
  ((∀ l, l ∈ winningConditions → ¬ lineCompleted (board g) l) →
   (Str "" ∉ board g → checkResult g = Some (Result "Draw" None)) ∧
   (Str "" ∈ board g → checkResult g = None)) ∧
  (currentPlayer g ≠ ""%string →
   (∀ l, l ∈ winningConditions → lineCompleted (board g) l →
         lineHolds (board g) l (Str (currentPlayer g))) →
   ((∃ line, checkResult g = Some (Result (currentPlayer g) (Some line))) ↔
    ∃ l, l ∈ winningConditions ∧
         lineHolds (board g) l (Str (currentPlayer g)))).
Proof.
  assert (Hfirst : ∀ line,
            checkResult g = Some (Result (currentPlayer g) (Some line)) ↔
            findWinningLine winningConditions (board g) = Some line).
  { intros line. unfold checkResult.
    destruct (findWinningLine winningConditions (board g)) as [l|].
    - split; intros H; injection H as ->; reflexivity.
    - destruct (negb (includesEmpty (board g))); split; discriminate. }
  assert (Hsome :
    (∃ line, checkResult g = Some (Result (currentPlayer g) (Some line))) ↔
    ∃ l, l ∈ winningConditions ∧ lineCompleted (board g) l).
  { split.
    - intros (line & H). apply Hfirst, findWinningLine_Some in H
        as (pre & a & b' & c & post & E & _ & Hc & _).
      exists (a, b', c). split; [|assumption].
      rewrite E. apply elem_of_app. right. apply list_elem_of_here.
    - intros (l & Hl & Hc).
      destruct (findWinningLine winningConditions (board g)) as [line|] eqn:E.
      + exists line. apply Hfirst. reflexivity.
      + rewrite findWinningLine_None in E. exfalso. apply (E l Hl Hc). }
  split; [|split; [exact Hsome|split]].
  - intros line. rewrite Hfirst. apply findWinningLine_Some.
  - intros Hnone. apply findWinningLine_None in Hnone.
    unfold checkResult. rewrite Hnone. split; intros Hcell.
    + destruct (includesEmpty (board g)) eqn:E; [|reflexivity].
      apply includesEmpty_true in E. contradiction.
    + apply includesEmpty_true in Hcell. rewrite Hcell. reflexivity.
  - intros Hp Hown. rewrite Hsome. split.
    + intros (l & Hl & Hc). exists l. split; [assumption|]. apply Hown; assumption.
    + intros (l & Hl & Hh). exists l. split; [assumption|].
      eapply lineHolds_completed; eassumption.
Qed.

(** C7: a click is rejected - the session stays as it is and no reply of the
    computer is scheduled - when the index denotes no cell of the board,
    when the cell holds a mark, and when the game is not active; an accepted
    click writes the current player's mark into the clicked cell.  The move
    of the computer is not made either when the game is not active. *)
Theorem handleCellClick_rejects (n : number) (g : game) :
  (outOfRange n (board g) → handleCellClick n g = (g, false)) ∧
  (∀ i v, cellIndex n = Some i → board g !! i = Some v → v ≠ Str "" →
          handleCellClick n g = (g, false)) ∧
  (isGameActive g = false →
   handleCellClick n g = (g, false) ∧ ∀ fuel, makeAiMove fuel g = Done g) ∧
  (∀ i, cellIndex n = Some i → board g !! i = Some (Str "") →
        isGameActive g = true →
        ¬ (gameMode g = "pvc"%string ∧ currentPlayer g = aiPlayer g) →
        board (handleCellClick n g).1
        = <[i := Str (currentPlayer g)]> (board g)).
Proof.
  split; [|split; [|split]].
  - intros Hout. unfold handleCellClick.
    destruct (cellIndex n) as [i|] eqn:Ei; [|reflexivity].
    destruct n as [|z]; [discriminate|]. simpl in *.
    destruct (Z.leb_spec 0 z) as [Hz | Hz]; [|discriminate].
    injection Ei as <-.
    assert (arr_get (board g) (Z.to_nat z) = Undefined) as ->.
    { unfold arr_get. rewrite lookup_ge_None_2 by lia. reflexivity. }
    reflexivity.
  - intros i v Ei Hv Hne. unfold handleCellClick. rewrite Ei.
    rewrite (arr_get_Some _ _ _ Hv).
    assert (strict_eq v (Str "") = false) as ->
      by (apply strict_eq_false; assumption).
    reflexivity.
  - intros Hoff. split.
    + unfold handleCellClick. rewrite Hoff.
      destruct (cellIndex n); [|reflexivity].
      rewrite orb_true_r. reflexivity.
    + intros fuel. unfold makeAiMove. rewrite Hoff. reflexivity.
  - intros i Ei Hcell Hon Hturn. unfold handleCellClick. rewrite Ei, Hon.
    rewrite (arr_get_Some _ _ _ Hcell), strict_eq_refl. simpl.
    assert (String.eqb (gameMode g) "pvc"
            && String.eqb (currentPlayer g) (aiPlayer g) = false) as ->.
    { destruct (String.eqb_spec (gameMode g) "pvc");
        destruct (String.eqb_spec (currentPlayer g) (aiPlayer g));
        try reflexivity. tauto. }
    simpl. unfold makeMove.
    rewrite arr_set_inside by (eapply lookup_lt_Some; eassumption).
    destruct (checkResult _); reflexivity.
Qed.

(** C6: the index [minimax] returns on a board on which the search goes on
    is that of an empty cell; on any board the value carries either no index
    or that of an empty cell; and [makeAiMove] hands [makeMove] the index of
    an empty cell of the session's board, which the search left as it was. *)
Theorem minimax_returns_empty_cell (human ai : string) (fuel : nat)
    (b : Board) (p : string) :
  human ≠ ""%string → ai ≠ ""%string → p ≠ ""%string →
  length (availSpots b) < fuel →
  (∃ mv, minimax human ai fuel b p = Done (Some mv, b) ∧
         (∀ i, index mv = Some i → b !! i = Some (Str "")) ∧
         (nonTerminal human ai b → ∃ i, index mv = Some i)) ∧
  (∀ g, board g = b → humanPlayer g = human → aiPlayer g = ai →
        isGameActive g = true → nonTerminal human ai b →
        ∃ i, b !! i = Some (Str "") ∧
             makeAiMove fuel g = Done (makeMove i ai g)).
Proof.
  intros Hh Ha Hp Hf.
  assert (Hinner : ∀ q, q ≠ ""%string → nonTerminal human ai b →
            ∃ i, b !! i = Some (Str "") ∧
                 minimax human ai fuel b q
                 = Done (Some (Move (Some i) (childScore human ai b q i)), b)).
  { intros q Hq Hnt.
    destruct (node_inner human ai Hh Ha b q Hq Hnt) as (i & Hi & Hnode & _).
    exists i. split; [assumption|].
    rewrite minimax_node by assumption. rewrite Hnode. reflexivity. }
  split.
  - destruct (node_outcome human ai Hh Ha b p Hp) as (mv & Hnode & _).
    exists mv. split; [|split].
    + rewrite minimax_node by assumption. rewrite Hnode. reflexivity.
    + intros i Hi.
      destruct (classic_nonTerminal human ai b) as [Hnt | Hnt].
      * destruct (node_inner human ai Hh Ha b p Hp Hnt) as (j & Hj & Hn & _).
        rewrite Hn in Hnode. injection Hnode as <-. simpl in Hi.
        injection Hi as <-. assumption.
      * pose proof (nonTerminal_node_other human ai b p Hnt) as E.
        rewrite Hnode in E. simpl in E. congruence.
    + intros Hnt.
      destruct (node_inner human ai Hh Ha b p Hp Hnt) as (j & Hj & Hn & _).
      rewrite Hn in Hnode. injection Hnode as <-. exists j. reflexivity.
  - intros g Hb Hhuman Hai Hon Hnt.
    destruct (Hinner ai Ha Hnt) as (i & Hi & Hrun).
    exists i. split; [assumption|].
    unfold makeAiMove. rewrite Hon, Hb, Hhuman, Hai. simpl.
    rewrite Hrun. simpl. f_equal. f_equal.
    destruct g; simpl in *; subst; reflexivity.
Qed.

(** ** A game against the computer *)

Lemma X_mark : "X"%string ≠ ""%string.
Proof. discriminate. Qed.

Lemma O_mark : "O"%string ≠ ""%string.
Proof. discriminate. Qed.

Lemma no_line_nonTerminal (b : Board) :
  findWinningLine winningConditions b = None → includesEmpty b = true →
  nonTerminal "X" "O" b.
Proof.
  intros Hline Hinc. split; [|split].
  - apply no_line_no_winner; [discriminate | assumption].
  - apply no_line_no_winner; [discriminate | assumption].
  - apply includesEmpty_spots. assumption.
Qed.

Lemma arr_set_length_inside (b : Board) (i : nat) (v w : value) :
  b !! i = Some w → length (arr_set b i v) = length b.
Proof.
  intros H. rewrite arr_set_inside by (eapply lookup_lt_Some; eassumption).
  apply length_insert.
Qed.

(** The reply of the computer from a position it does not lose keeps the
    invariant. *)
Lemma makeAiMove_safe (fuel : nat) (b : Board) :
  10 ≤ fuel → length b = 9 →
  findWinningLine winningConditions b = None → includesEmpty b = true →
  (0 ≤ scoreAt "X" "O" b "O")%Z →
  ∃ g', makeAiMove fuel (Game b "O" true "pvc" "X" "O" None) = Done g' ∧
        computerSafe g'.
Proof.
  intros Hf Hlen Hline Hinc Hscore.
  pose proof (no_line_nonTerminal b Hline Hinc) as Hnt.
  destruct (node_inner "X" "O" X_mark O_mark b "O" O_mark Hnt)
    as (i & Hi & Hnode & _).
  pose proof (scoreAt_node "X" "O" X_mark O_mark b "O" _ O_mark Hnode) as E.
  cbn [score] in E. unfold childScore in E.
  change (opponent "X" "O" "O") with "X"%string in E.
  pose proof (availSpots_le_length b) as Hle.
  unfold makeAiMove. cbn [isGameActive negb humanPlayer aiPlayer board].
  rewrite (minimax_node "X" "O" X_mark O_mark) by (apply O_mark || lia).
  rewrite Hnode. cbn [bind index].
  unfold makeMove, checkResult, with_board.
  cbn [board currentPlayer isGameActive gameMode humanPlayer aiPlayer
       announced].
  destruct (findWinningLine winningConditions (arr_set b i (Str "O")))
    as [l|] eqn:Hl2.
  - eexists. split; [reflexivity|]. unfold computerSafe, finishedWell.
    cbn. repeat split. right. exists l. reflexivity.
  - destruct (includesEmpty (arr_set b i (Str "O"))) eqn:Hinc2; cbn [negb].
    + eexists. split; [reflexivity|]. unfold computerSafe, with_currentPlayer.
      cbn [board currentPlayer isGameActive gameMode humanPlayer aiPlayer
           announced].
      split; [reflexivity|]. split; [reflexivity|]. split; [reflexivity|].
      split; [reflexivity|]. split; [reflexivity|]. split; [assumption|].
      split; [rewrite (arr_set_length_inside _ _ _ _ Hi); assumption|].
      rewrite <- E. assumption.
    + eexists. split; [reflexivity|]. unfold computerSafe, finishedWell.
      cbn. repeat split. left. reflexivity.
Qed.

(** A click, with the reply of the computer, keeps the invariant. *)
Lemma clickCell_safe (fuel : nat) (n : number) (g : game) :
  10 ≤ fuel → computerSafe g →
  ∃ g', clickCell fuel n g = Done g' ∧ computerSafe g'.
Proof.
  intros Hf Hsafe. pose proof Hsafe as Hkeep.
  destruct g as [b cp act mode hp ap ann].
  unfold computerSafe in Hsafe.
  cbn [board currentPlayer isGameActive gameMode humanPlayer aiPlayer
       announced] in Hsafe.
  destruct Hsafe as (-> & -> & -> & Hsafe).
  unfold clickCell, handleCellClick.
  cbn [board currentPlayer isGameActive gameMode humanPlayer aiPlayer
       announced].
  destruct (cellIndex n) as [idx|]; [|exists (Game b cp act "pvc" "X" "O" ann);
                                      split; [reflexivity | assumption]].
  destruct act.
  2: { rewrite orb_true_r. eexists. split; [reflexivity | assumption]. }
  destruct Hsafe as (-> & -> & Hline & Hlen & Hscore).
  destruct (strict_eq (arr_get b idx) (Str "")) eqn:Hcell;
    [|eexists; split; [reflexivity | assumption]].
  apply strict_eq_true, arr_get_empty in Hcell.
  cbn [negb orb]. change (String.eqb "pvc" "pvc" && String.eqb "X" "O")
    with false. cbn iota.
  assert (Hnt : nonTerminal "X" "O" b).
  { apply no_line_nonTerminal; [assumption|].
    apply includesEmpty_true. eapply list_elem_of_lookup_2. eassumption. }
  destruct (scoreAt_inner "X" "O" X_mark O_mark b "X" X_mark Hnt)
    as (i & _ & _ & _ & Hmin).
  specialize (Hmin ltac:(discriminate) idx Hcell).
  unfold childScore in Hmin. change (opponent "X" "O" "X") with "O"%string in Hmin.
  unfold makeMove, checkResult, with_board.
  cbn [board currentPlayer isGameActive gameMode humanPlayer aiPlayer
       announced].
  destruct (findWinningLine winningConditions (arr_set b idx (Str "X")))
    as [l|] eqn:Hl1.
  - exfalso. pose proof (new_line_wins b idx "X" l Hline Hl1) as Hwin.
    assert (scoreAt "X" "O" (arr_set b idx (Str "X")) "O" = (-10)%Z) as E.
    { apply (scoreAt_node "X" "O" X_mark O_mark _ "O" (Move None (-10)) O_mark).
      unfold node. rewrite Hwin. reflexivity. }
    lia.
  - destruct (includesEmpty (arr_set b idx (Str "X"))) eqn:Hinc1; cbn [negb].
    + unfold with_currentPlayer.
      cbn [board currentPlayer isGameActive gameMode humanPlayer aiPlayer
           announced].
      change (String.eqb "X" "X") with true. cbn iota.
      change (true && String.eqb "pvc" "pvc" && String.eqb "O" "O") with true.
      cbn iota.
      apply makeAiMove_safe; try assumption.
      * rewrite (arr_set_length_inside _ _ _ _ Hcell). assumption.
      * lia.
    + unfold handleGameEnd.
      cbn [board currentPlayer isGameActive gameMode humanPlayer aiPlayer
           announced andb].
      eexists. split; [reflexivity|]. unfold computerSafe, finishedWell.
      cbn. repeat split. left. reflexivity.
Qed.

Lemma clickCells_safe (fuel : nat) (clicks : list number) : ∀ g,
  10 ≤ fuel → computerSafe g →
  ∃ g', clickCells fuel clicks g = Done g' ∧ computerSafe g'.
Proof.
  induction clicks as [|n rest IH]; intros g Hf Hsafe.
  - exists g. split; [reflexivity | assumption].
  - destruct (clickCell_safe fuel n g Hf Hsafe) as (g1 & E & Hsafe1).
    simpl. rewrite E. simpl. apply IH; assumption.
Qed.

(** The invariant excludes a win of the human player. *)
Lemma computerSafe_outcome (g : game) :
  computerSafe g →
  ¬ humanWon g ∧ (isGameActive g = false → finishedWell g).
Proof.
  intros (_ & Hh & Ha & H). unfold humanWon, finishedWell in *.
  rewrite Hh, Ha in *. destruct (isGameActive g).
  - destruct H as (_ & -> & _). split; [intros (l & E) | ]; discriminate.
  - split; [|intros _; assumption].
    intros (l & E). destruct H as [H | (l' & H)]; rewrite H in E; discriminate.
Qed.

Lemma emptyBoard_safe (p : string) :
  p = "X"%string ∨ p = "O"%string →
  (0 ≤ scoreAt "X" "O" emptyBoard p)%Z.
Proof.
  intros [-> | ->]; apply (holds_sound "X" "O" X_mark O_mark 10);
    try discriminate; vm_compute; reflexivity.
Qed.

Lemma pvcGame_safe : computerSafe pvcGame.
Proof.
  unfold computerSafe. cbn.
  split; [reflexivity|]. split; [reflexivity|]. split; [reflexivity|].
  split; [reflexivity|]. split; [reflexivity|]. split; [reflexivity|].
  split; [reflexivity|]. apply emptyBoard_safe. left. reflexivity.
Qed.

(** C1: in the mode against the computer, whatever cells the human clicks,
    from the empty board, with the computer replying to every accepted move
    by the cell [minimax] returns, the session runs without error and never
    announces a win of the human; a finished game is a draw or a win of the
    computer.  The same holds when the computer opens. *)
Theorem human_never_wins (fuel : nat) (clicks : list number) :
  10 ≤ fuel →
  (∃ g, clickCells fuel clicks pvcGame = Done g ∧
        ¬ humanWon g ∧ (isGameActive g = false → finishedWell g)) ∧
  (∃ g1 g, makeAiMove fuel (with_currentPlayer pvcGame "O") = Done g1 ∧
           clickCells fuel clicks g1 = Done g ∧
           ¬ humanWon g ∧ (isGameActive g = false → finishedWell g)).
Proof.
  intros Hf. split.
  - destruct (clickCells_safe fuel clicks pvcGame Hf pvcGame_safe)
      as (g & E & Hsafe).
    exists g. split; [assumption|]. apply computerSafe_outcome. assumption.
  - destruct (makeAiMove_safe fuel emptyBoard Hf eq_refl eq_refl eq_refl
                (emptyBoard_safe "O" (or_intror eq_refl)))
      as (g1 & E1 & Hsafe1).
    destruct (clickCells_safe fuel clicks g1 Hf Hsafe1) as (g & E & Hsafe).
    exists g1, g. split; [exact E1|]. split; [assumption|].
    apply computerSafe_outcome. assumption.
Qed.

(** A mark of one player completes no line of another mark. *)
Lemma other_mark_no_new_line (b : Board) (i : nat) (p q : string)
    (l : nat * nat * nat) :
  p ≠ q → lineHolds (arr_set b i (Str p)) l (Str q) → lineHolds b l (Str q).
Proof.
  destruct l as [[a b'] c]. simpl. intros Hpq (Ha & Hb & Hc).
  assert (Hcell : ∀ x, arr_get (arr_set b i (Str p)) x = Str q →
                       arr_get b x = Str q).
  { intros x Hx. destruct (Nat.eq_dec i x) as [<- | Hne].
    - rewrite arr_get_set_eq in Hx. congruence.
    - rewrite arr_get_set_ne in Hx by assumption. assumption. }
  auto.
Qed.

(** With the computer's mark in cells 0 and 1 and cell 2 empty, the search
    for the computer returns cell 2 with score 10, whatever the rest of the
    board is, as long as nobody has a line yet. *)
Lemma minimax_takes_top_row (human ai : string) (fuel : nat) (b : Board) :
  human ≠ ""%string → ai ≠ ""%string → human ≠ ai →
  nonTerminal human ai b →
  arr_get b 0 = Str ai → arr_get b 1 = Str ai → b !! 2 = Some (Str "") →
  length (availSpots b) < fuel →
  minimax human ai fuel b ai = Done (Some (Move (Some 2) 10), b).
Proof.
  intros Hh Ha Hne Hnt H0 H1 H2 Hf.
  assert (Hchild : childScore human ai b ai 2 = 10%Z).
  { unfold childScore.
    apply (scoreAt_node human ai Hh Ha _ _ (Move None 10)
             (opponent_mark human ai Hh Ha ai)).
    unfold node.
    assert (checkWinState (arr_set b 2 (Str ai)) human = false) as ->.
    { destruct (checkWinState (arr_set b 2 (Str ai)) human) eqn:E;
        [|reflexivity].
      apply checkWinState_from_true in E as (l & Hl & Hline).
      apply other_mark_no_new_line in Hline; [|congruence].
      destruct Hnt as (Hnone & _). unfold checkWinState in Hnone.
      assert (checkWinState_from winningConditions b human = true) as E
        by (apply checkWinState_from_true; exists l; split; assumption).
      congruence. }
    assert (checkWinState (arr_set b 2 (Str ai)) ai = true) as ->.
    { apply checkWinState_from_true. exists (0, 1, 2).
      split; [apply list_elem_of_here|]. simpl.
      rewrite !arr_get_set_ne by discriminate. rewrite arr_get_set_eq.
      auto. }
    reflexivity. }
  destruct (node_inner human ai Hh Ha b ai Ha Hnt) as (i & Hi & Hnode & Hmax & _).
  destruct (Hmax eq_refl 2 H2) as (Hle & Hfirst).
  pose proof (scoreAt_outcome human ai Hh Ha (arr_set b i (Str ai))
                (opponent human ai ai) (opponent_mark human ai Hh Ha ai))
    as Hok.
  fold (childScore human ai b ai i) in Hok.
  assert (Hscore : childScore human ai b ai i = 10%Z)
    by (unfold outcomeScore in Hok; lia).
  assert (Hi2 : i = 2).
  { destruct (Nat.lt_ge_cases 2 i) as [Hlt | Hge]; [specialize (Hfirst Hlt); lia|].
    apply arr_get_empty in Hi.
    destruct i as [|[|[|i]]]; [congruence | congruence | reflexivity | lia]. }
  subst i. rewrite minimax_node by assumption.
  rewrite Hnode, Hscore. reflexivity.
Qed.

(** C8: on the board with ['X'] in cells 0 and 1 and ['O'] in the centre,
    the computer playing ['X'], [minimax] returns cell 2 with score 10;
    marking it completes the top row, and [makeAiMove] ends the game with a
    win of ['X'] on that row.  The other empty cells play no part: the same
    cell is returned on every board without a line that has the computer's
    mark in cells 0 and 1 and cell 2 empty. *)
Theorem minimax_completes_top_row (fuel : nat) :
  7 ≤ fuel →
  minimax "O" "X" fuel topRowBoard "X"
  = Done (Some (Move (Some 2) 10), topRowBoard) ∧
  checkWinState (arr_set topRowBoard 2 (Str "X")) "X" = true ∧
  makeAiMove fuel (Game topRowBoard "X" true "pvc" "O" "X" None)
  = Done (Game (arr_set topRowBoard 2 (Str "X")) "X" false "pvc" "O" "X"
               (Some (Result "X" (Some [0; 1; 2])))) ∧
  (∀ b, nonTerminal "O" "X" b →
        arr_get b 0 = Str "X" → arr_get b 1 = Str "X" →
        b !! 2 = Some (Str "") → length (availSpots b) < fuel →
        minimax "O" "X" fuel b "X" = Done (Some (Move (Some 2) 10), b)).
Proof.
  intros Hf.
  assert (E : minimax "O" "X" fuel topRowBoard "X"
              = Done (Some (Move (Some 2) 10), topRowBoard)).
  { rewrite (minimax_node "O" "X" O_mark X_mark).
    - vm_compute. reflexivity.
    - discriminate.
    - change (length (availSpots topRowBoard)) with 6. lia. }
  split; [exact E|]. split; [reflexivity|]. split.
  - unfold makeAiMove. cbn [isGameActive negb humanPlayer aiPlayer board].
    rewrite E. reflexivity.
  - intros b Hnt H0 H1 H2 Hlen.
    apply minimax_takes_top_row; try assumption; discriminate.
Qed.

(** The marks have to differ from ['']: when both are [''], a trial mark
    leaves the cell empty, and on a board without a line of empty cells the
    search of the model never returns. *)
Remark minimax_empty_marks_diverge (fuel : nat) :
  minimax "" "" fuel diagonalBoard "" = OutOfFuel.
Proof.
  induction fuel as [|f IH]; [reflexivity|].
  rewrite minimax_S.
  change (checkWinState diagonalBoard "") with false. cbn iota.
  change (availSpots diagonalBoard) with [1; 2; 3; 5; 6; 7].
  cbn [length Nat.eqb tryMoves].
  change (arr_set diagonalBoard 1 (Str "")) with diagonalBoard.
  change (if String.eqb "" "" then ""%string else ""%string) with ""%string.
  rewrite IH. reflexivity.
Qed.

(** ** The statements at concrete boards *)

(** A game in full: the human clicks the cells in ascending order (clicks on
    marked cells are ignored) and loses on the anti-diagonal. *)
Example sample_game :
  clickCells 10 [Num 0; Num 1; Num 2; Num 3] pvcGame
  = Done (Game [Str "X"; Str "X"; Str "O"; Str "X"; Str "O"; Str "";
                Str "O"; Str ""; Str ""]
               "O" false "pvc" "X" "O"
               (Some (Result "O" (Some [2; 4; 6])))).
Proof. vm_compute. reflexivity. Qed.

Lemma human_never_wins_two_clicks :
  10 ≤ 10 ∧
  (∃ g, clickCells 10 [Num 4; Num 0] pvcGame = Done g ∧
        ¬ humanWon g ∧ (isGameActive g = false → finishedWell g)).
Proof.
  split; [lia|].
  apply (human_never_wins 10 [Num 4; Num 0]). lia.
Defined.

Lemma minimax_base_case_order_boards :
  minimax "X" "O" 1 topRowOfX "O" = Done (Some (Move None (-10)), topRowOfX) ∧
  minimax "X" "O" 1 topRowOfO "X" = Done (Some (Move None 10), topRowOfO) ∧
  minimax "X" "O" 1 drawnBoard "X" = Done (Some (Move None 0), drawnBoard) ∧
  ∃ i mv,
    emptyBoard !! i = Some (Str "") ∧
    minimax "X" "O" 9 (arr_set emptyBoard i (Str "X")) "O"
    = Done (Some mv, arr_set emptyBoard i (Str "X")) ∧
    minimax "X" "O" 10 emptyBoard "X"
    = Done (Some (Move (Some i) (score mv)), emptyBoard).
Proof.
  split; [|split; [|split]].
  - apply (minimax_base_case_order "X" "O" 1 topRowOfX "O"); [lia|].
    reflexivity.
  - apply (minimax_base_case_order "X" "O" 1 topRowOfO "X"); [lia| |];
      reflexivity.
  - apply (minimax_base_case_order "X" "O" 1 drawnBoard "X"); [lia| | |];
      reflexivity.
  - apply (minimax_base_case_order "X" "O" 10 emptyBoard "X");
      [lia | discriminate | discriminate | discriminate | vm_compute; lia |].
    split; [reflexivity|]. split; [reflexivity|]. vm_compute. discriminate.
Defined.

Lemma minimax_first_extremal_empty_board :
  "X"%string ≠ ""%string ∧ "O"%string ≠ ""%string ∧
  length (availSpots emptyBoard) < 10 ∧ nonTerminal "X" "O" emptyBoard ∧
  ∃ i, emptyBoard !! i = Some (Str "") ∧
       minimax "X" "O" 10 emptyBoard "X"
       = Done (Some (Move (Some i) (childScore "X" "O" emptyBoard "X" i)),
               emptyBoard).
Proof.
  assert (Hx : "X"%string ≠ ""%string) by discriminate.
  assert (Ho : "O"%string ≠ ""%string) by discriminate.
  assert (Hlen : length (availSpots emptyBoard) < 10) by (vm_compute; lia).
  assert (Hnt : nonTerminal "X" "O" emptyBoard).
  { split; [reflexivity|]. split; [reflexivity|]. vm_compute. discriminate. }
  split; [exact Hx|]. split; [exact Ho|]. split; [exact Hlen|].
  split; [exact Hnt|].
  destruct (minimax_first_extremal "X" "O" Hx Ho 10 emptyBoard "X" Hx Hlen Hnt)
    as (i & Hi & Hrun & _).
  exists i. split; assumption.
Defined.

Lemma minimax_restores_empty_board :
  "X"%string ≠ ""%string ∧ "O"%string ≠ ""%string ∧
  length (availSpots emptyBoard) < 10 ∧
  ∃ mv, minimax "X" "O" 10 emptyBoard "O" = Done (Some mv, emptyBoard).
Proof.
  assert (Hx : "X"%string ≠ ""%string) by discriminate.
  assert (Ho : "O"%string ≠ ""%string) by discriminate.
  assert (Hlen : length (availSpots emptyBoard) < 10) by (vm_compute; lia).
  split; [exact Hx|]. split; [exact Ho|]. split; [exact Hlen|].
  apply (minimax_restores_board "X" "O" 10 emptyBoard "O"); assumption.
Defined.

Lemma minimax_terminates_centre_taken :
  "X"%string ≠ ""%string ∧ "O"%string ≠ ""%string ∧ length centreTaken = 9 ∧
  ∃ mv, minimax "X" "O" 10 centreTaken "O" = Done (Some mv, centreTaken).
Proof.
  assert (Hx : "X"%string ≠ ""%string) by discriminate.
  assert (Ho : "O"%string ≠ ""%string) by discriminate.
  split; [exact Hx|]. split; [exact Ho|]. split; [reflexivity|].
  apply (minimax_terminates "X" "O" Hx Ho centreTaken "O" Ho);
    [reflexivity | lia].
Defined.

Lemma minimax_score_range_centre_taken :
  "X"%string ≠ ""%string ∧ "O"%string ≠ ""%string ∧
  length (availSpots centreTaken) < 10 ∧
  ∃ mv, minimax "X" "O" 10 centreTaken "O" = Done (Some mv, centreTaken) ∧
        outcomeScore (score mv).
Proof.
  assert (Hx : "X"%string ≠ ""%string) by discriminate.
  assert (Ho : "O"%string ≠ ""%string) by discriminate.
  assert (Hlen : length (availSpots centreTaken) < 10) by (vm_compute; lia).
  split; [exact Hx|]. split; [exact Ho|]. split; [exact Hlen|].
  destruct (minimax_score_range "X" "O" Hx Ho 10 centreTaken "O" Ho Hlen)
    as (mv & Hrun & Hok & _).
  exists mv. split; assumption.
Defined.

Lemma minimax_returns_empty_cell_centre_taken :
  "X"%string ≠ ""%string ∧ "O"%string ≠ ""%string ∧
  length (availSpots centreTaken) < 10 ∧ nonTerminal "X" "O" centreTaken ∧
  ∃ i, centreTaken !! i = Some (Str "") ∧
       makeAiMove 10 (Game centreTaken "O" true "pvc" "X" "O" None)
       = Done (makeMove i "O" (Game centreTaken "O" true "pvc" "X" "O" None)).
Proof.
  assert (Hx : "X"%string ≠ ""%string) by discriminate.
  assert (Ho : "O"%string ≠ ""%string) by discriminate.
  assert (Hlen : length (availSpots centreTaken) < 10) by (vm_compute; lia).
  assert (Hnt : nonTerminal "X" "O" centreTaken).
  { split; [reflexivity|]. split; [reflexivity|]. vm_compute. discriminate. }
  split; [exact Hx|]. split; [exact Ho|]. split; [exact Hlen|].
  split; [exact Hnt|].
  apply (minimax_returns_empty_cell "X" "O" 10 centreTaken "O" Hx Ho Ho Hlen);
    try reflexivity. exact Hnt.
Defined.

Lemma handleCellClick_rejects_centre_taken :
  let g := Game centreTaken "O" true "pvp" "X" "O" None in
  handleCellClick (Num 4) g = (g, false) ∧
  handleCellClick (Num 9) g = (g, false) ∧
  handleCellClick (Num (-1)) g = (g, false) ∧
  handleCellClick NaN g = (g, false) ∧
  board (handleCellClick (Num 0) g).1 = <[0 := Str "O"]> centreTaken.
Proof.
  intros g. split; [|split; [|split; [|split]]].
  - destruct (handleCellClick_rejects (Num 4) g) as (_ & Hocc & _).
    apply (Hocc 4 (Str "X")); [reflexivity | reflexivity | discriminate].
  - destruct (handleCellClick_rejects (Num 9) g) as (Hout & _).
    apply Hout. right. vm_compute. discriminate.
  - destruct (handleCellClick_rejects (Num (-1)) g) as (Hout & _).
    apply Hout. left. lia.
  - destruct (handleCellClick_rejects NaN g) as (Hout & _).
    apply Hout. exact I.
  - destruct (handleCellClick_rejects (Num 0) g) as (_ & _ & _ & Hok).
    apply Hok; [reflexivity | reflexivity | reflexivity |].
    intros [H _]. discriminate.
Defined.

Lemma checkResult_outcome_boards :
  checkResult (Game drawnBoard "X" true "pvp" "X" "O" None)
  = Some (Result "Draw" None) ∧
  checkResult (Game centreTaken "X" true "pvp" "X" "O" None) = None ∧
  ((∃ line, checkResult (Game topRowOfX "X" true "pvp" "X" "O" None)
            = Some (Result "X" (Some line))) ↔
   ∃ l, l ∈ winningConditions ∧ lineHolds topRowOfX l (Str "X")).
Proof.
  split; [|split].
  - apply (checkResult_outcome (Game drawnBoard "X" true "pvp" "X" "O" None)).
    + apply findWinningLine_None. reflexivity.
    + intros H. apply includesEmpty_true in H. discriminate.
  - apply (checkResult_outcome (Game centreTaken "X" true "pvp" "X" "O" None)).
    + apply findWinningLine_None. reflexivity.
    + apply includesEmpty_true. reflexivity.
  - apply (checkResult_outcome (Game topRowOfX "X" true "pvp" "X" "O" None)).
    + discriminate.
    + intros l Hl. cbn [board] in *.
      repeat (apply elem_of_cons in Hl as [-> | Hl]);
        [..| inversion Hl];
        unfold lineCompleted, lineHolds; cbn; intuition congruence.
Defined.

Lemma minimax_completes_top_row_fuel_7 :
  7 ≤ 7 ∧
  minimax "O" "X" 7 topRowBoard "X"
  = Done (Some (Move (Some 2) 10), topRowBoard).
Proof.
  split; [lia|].
  destruct (minimax_completes_top_row 7) as (H & _); [lia | exact H].
Defined.

(** * Beyond the claims: the whole session *)

(** ** What a move does to the session *)

Lemma checkResult_None (g : game) :
  checkResult g = None ↔
  findWinningLine winningConditions (board g) = None ∧
  includesEmpty (board g) = true.
Proof.
  unfold checkResult.
  destruct (findWinningLine winningConditions (board g)) as [l|].
  - split; [discriminate | intros [H _]; discriminate].
  - destruct (includesEmpty (board g)); simpl; split;
      try discriminate; try (intros [_ H]; discriminate); auto.
Qed.

Lemma checkResult_same (g g' : game) :
  board g = board g' → currentPlayer g = currentPlayer g' →
  checkResult g = checkResult g'.
Proof. intros Hb Hc. unfold checkResult. rewrite Hb, Hc. reflexivity. Qed.

Lemma makeMove_board (i : nat) (p : string) (g : game) :
  board (makeMove i p g) = arr_set (board g) i (Str p).
Proof. unfold makeMove. destruct (checkResult _); reflexivity. Qed.

Lemma makeMove_settings (i : nat) (p : string) (g : game) :
  gameMode (makeMove i p g) = gameMode g ∧
  humanPlayer (makeMove i p g) = humanPlayer g ∧
  aiPlayer (makeMove i p g) = aiPlayer g.
Proof. unfold makeMove. destruct (checkResult _); repeat split. Qed.

Lemma with_board_same (g : game) : with_board g (board g) = g.
Proof. destruct g. reflexivity. Qed.

Lemma toggle_turn (cp : string) :
  cp = "X"%string ∨ cp = "O"%string →
  (if String.eqb cp "X" then "O"%string else "X"%string)
  = (if String.eqb cp "O" then "X"%string else "O"%string) ∧
  ((if String.eqb cp "X" then "O"%string else "X"%string) = "X"%string ∨
   (if String.eqb cp "X" then "O"%string else "X"%string) = "O"%string).
Proof. intros [-> | ->]; split; auto. Qed.

Lemma markedCell_mark (p : string) :
  p = "X"%string ∨ p = "O"%string → markedCell (Str p).
Proof. intros [-> | ->]; unfold markedCell; auto. Qed.

(** A move on an empty cell of a consistent, active session leaves a
    consistent session. *)
Lemma makeMove_consistent (i : nat) (p : string) (g : game) :
  consistent g → isGameActive g = true → board g !! i = Some (Str "") →
  p = "X"%string ∨ p = "O"%string →
  consistent (makeMove i p g).
Proof.
  intros (Hh & Ha & Hmode & Hcur & Hlen & Hcells & Hres) Hon Hi Hp.
  rewrite Hon in Hres. destruct Hres as (Hann & _).
  pose proof (makeMove_settings i p g) as (Em & Eh & Ea).
  pose proof (makeMove_board i p g) as Eb.
  unfold consistent. rewrite Em, Eh, Ea, Eb.
  split; [assumption|]. split; [assumption|]. split; [assumption|].
  assert (Hlen' : length (arr_set (board g) i (Str p)) = 9)
    by (rewrite (arr_set_length_inside _ _ _ _ Hi); assumption).
  assert (Hcells' : Forall markedCell (arr_set (board g) i (Str p))).
  { rewrite arr_set_inside by (eapply lookup_lt_Some; eassumption).
    apply Forall_insert; [assumption | apply markedCell_mark, Hp]. }
  unfold makeMove in *.
  destruct (checkResult (with_board g (arr_set (board g) i (Str p))))
    as [r|] eqn:E.
  - cbn [handleGameEnd with_board board currentPlayer isGameActive announced].
    split; [assumption|]. split; [assumption|]. split; [assumption|].
    exists r. split; [reflexivity | exact E].
  - cbn [with_currentPlayer with_board board currentPlayer isGameActive
         announced].
    rewrite Hon.
    split; [apply (toggle_turn _ Hcur)|]. split; [assumption|].
    split; [assumption|].
    split; [assumption|].
    apply checkResult_None in E. apply checkResult_None. exact E.
Qed.

(** The two ways a click is handled. *)
Lemma handleCellClick_cases (n : number) (g : game) :
  handleCellClick n g = (g, false) ∨
  ∃ i, cellIndex n = Some i ∧ board g !! i = Some (Str "") ∧
       isGameActive g = true ∧
       ¬ (gameMode g = "pvc"%string ∧ currentPlayer g = aiPlayer g) ∧
       handleCellClick n g
       = (makeMove i (currentPlayer g) g,
          isGameActive (makeMove i (currentPlayer g) g)
          && String.eqb (gameMode (makeMove i (currentPlayer g) g)) "pvc"
          && String.eqb (currentPlayer (makeMove i (currentPlayer g) g))
                        (aiPlayer (makeMove i (currentPlayer g) g))).
Proof.
  unfold handleCellClick. destruct (cellIndex n) as [i|]; [|left; reflexivity].
  destruct (strict_eq (arr_get (board g) i) (Str "")) eqn:Ecell;
    [|left; reflexivity].
  destruct (isGameActive g) eqn:Eon; [|left; reflexivity].
  cbn [negb orb].
  destruct (String.eqb_spec (gameMode g) "pvc") as [Em | Em];
    destruct (String.eqb_spec (currentPlayer g) (aiPlayer g)) as [Ec | Ec];
    cbn [andb]; try (left; reflexivity);
    right; exists i;
    (split; [reflexivity|]);
    (split; [apply arr_get_empty, strict_eq_true, Ecell|]);
    (split; [reflexivity|]); (split; [tauto | reflexivity]).
Qed.

(** When the timer fires on a consistent session, the computer has a
    move. *)
Lemma makeAiMove_cases (fuel : nat) (g : game) :
  10 ≤ fuel → consistent g →
  (isGameActive g = false ∧ makeAiMove fuel g = Done g) ∨
  ∃ i, isGameActive g = true ∧ board g !! i = Some (Str "") ∧
       makeAiMove fuel g = Done (makeMove i "O" g).
Proof.
  intros Hf (Hh & Ha & _ & _ & Hlen & _ & Hres).
  unfold makeAiMove. destruct (isGameActive g) eqn:Hon;
    [right | left; split; reflexivity].
  destruct Hres as (_ & Hres). apply checkResult_None in Hres as (Hline & Hinc).
  pose proof (no_line_nonTerminal _ Hline Hinc) as Hnt.
  destruct (node_inner "X" "O" X_mark O_mark (board g) "O" O_mark Hnt)
    as (i & Hi & Hnode & _).
  exists i. split; [reflexivity|]. split; [assumption|].
  cbn [negb]. rewrite Hh, Ha.
  pose proof (availSpots_le_length (board g)) as Hle.
  rewrite (minimax_node "X" "O" X_mark O_mark) by (apply O_mark || lia).
  rewrite Hnode. cbn [bind index]. rewrite with_board_same. reflexivity.
Qed.

Lemma emptyBoard_cells : Forall markedCell emptyBoard.
Proof. repeat constructor. Qed.

Lemma resetGame_consistent (g : game) :
  consistent g → consistent (resetGame g).
Proof.
  intros (Hh & Ha & Hmode & _). unfold consistent, resetGame.
  cbn [humanPlayer aiPlayer gameMode currentPlayer board isGameActive
       announced].
  split; [assumption|]. split; [assumption|]. split; [assumption|].
  split; [left; reflexivity|]. split; [reflexivity|].
  split; [apply emptyBoard_cells|]. split; reflexivity.
Qed.

Lemma setMode_consistent (mode : string) (g : game) :
  mode = "pvp"%string ∨ mode = "pvc"%string →
  consistent g → consistent (setMode mode g).
Proof.
  intros Hmode Hg. unfold setMode.
  destruct (String.eqb (gameMode g) mode); [assumption|].
  apply resetGame_consistent.
  destruct Hg as (Hh & Ha & _ & Hrest).
  split; [assumption|]. split; [assumption|]. split; [assumption|].
  exact Hrest.
Qed.

Lemma newGame_consistent : consistent newGame.
Proof.
  unfold consistent, newGame.
  cbn [humanPlayer aiPlayer gameMode currentPlayer board isGameActive
       announced].
  split; [reflexivity|]. split; [reflexivity|]. split; [left; reflexivity|].
  split; [left; reflexivity|]. split; [reflexivity|].
  split; [apply emptyBoard_cells|]. split; reflexivity.
Qed.

Lemma handleCellClick_consistent (n : number) (g : game) :
  consistent g → consistent (handleCellClick n g).1.
Proof.
  intros Hg.
  destruct (handleCellClick_cases n g) as [-> | (i & _ & Hi & Hon & _ & ->)];
    [assumption|].
  cbn [fst]. apply makeMove_consistent; try assumption.
  destruct Hg as (_ & _ & _ & Hcur & _). assumption.
Qed.

Lemma makeAiMove_consistent (fuel : nat) (g : game) :
  10 ≤ fuel → consistent g →
  ∃ g', makeAiMove fuel g = Done g' ∧ consistent g'.
Proof.
  intros Hf Hg.
  destruct (makeAiMove_cases fuel g Hf Hg) as [(_ & ->) | (i & Hon & Hi & ->)].
  - exists g. split; [reflexivity | assumption].
  - eexists. split; [reflexivity|].
    apply makeMove_consistent; try assumption. right. reflexivity.
Qed.

(** Every event keeps the session consistent, in any order. *)
Lemma dispatch_consistent (fuel : nat) (ev : event) (g : game) (k : nat) :
  10 ≤ fuel → consistent g →
  ∃ g' k', dispatch fuel ev (g, k) = Done (g', k') ∧ consistent g'.
Proof.
  intros Hf Hg. destruct ev as [n| | | | |]; cbn [dispatch].
  - pose proof (handleCellClick_consistent n g Hg) as H.
    destruct (handleCellClick n g) as [g1 scheduled]. cbn [fst] in H.
    eexists _, _. split; [reflexivity | assumption].
  - eexists _, _. split; [reflexivity | apply resetGame_consistent, Hg].
  - eexists _, _. split; [reflexivity | apply resetGame_consistent, Hg].
  - eexists _, _. split; [reflexivity|].
    apply setMode_consistent; [left; reflexivity | assumption].
  - eexists _, _. split; [reflexivity|].
    apply setMode_consistent; [right; reflexivity | assumption].
  - destruct k as [|k].
    + exists g, 0. split; [reflexivity | assumption].
    + destruct (makeAiMove_consistent fuel g Hf Hg) as (g' & E & Hg').
      exists g', k. rewrite E. split; [reflexivity | assumption].
Qed.

Lemma dispatchAll_consistent (fuel : nat) (evs : list event) :
  ∀ (g : game) (k : nat),
    10 ≤ fuel → consistent g →
    ∃ g' k', dispatchAll fuel evs (g, k) = Done (g', k') ∧ consistent g'.
Proof.
  induction evs as [|ev evs IH]; intros g k Hf Hg.
  - exists g, k. split; [reflexivity | assumption].
  - destruct (dispatch_consistent fuel ev g k Hf Hg) as (g1 & k1 & E & Hg1).
    cbn [dispatchAll]. rewrite E. cbn [bind]. apply IH; assumption.
Qed.

Lemma setMode_sets_mode (mode : string) (g : game) :
  gameMode (setMode mode g) = mode.
Proof.
  unfold setMode. destruct (String.eqb_spec (gameMode g) mode); [assumption|].
  reflexivity.
Qed.

(** ** Any order of events *)

(** X1: whatever the user clicks and whenever the timers fire, from a fresh
    object the handlers never fail - the search always gives the computer a
    move - and the board keeps its 9 cells, each [''], ['X'] or ['O']; the
    marks of the two players and the set of modes never change. *)
Theorem session_never_fails (fuel : nat) (evs : list event) :
  10 ≤ fuel →
  ∃ g k, dispatchAll fuel evs (newGame, 0) = Done (g, k) ∧
         length (board g) = 9 ∧ Forall markedCell (board g) ∧
         humanPlayer g = "X"%string ∧ aiPlayer g = "O"%string ∧
         (currentPlayer g = "X"%string ∨ currentPlayer g = "O"%string) ∧
         (gameMode g = "pvp"%string ∨ gameMode g = "pvc"%string).
Proof.
  intros Hf.
  destruct (dispatchAll_consistent fuel evs newGame 0 Hf newGame_consistent)
    as (g & k & E & Hh & Ha & Hmode & Hcur & Hlen & Hcells & _).
  exists g, k. auto 10.
Qed.

(** X2: in every session reached from a fresh object, in any order of
    events, what has been announced is what [checkResult] gives on the
    session as it is, and the game is active exactly when that is [null]. *)
Theorem announcement_agrees_with_checkResult (fuel : nat) (evs : list event) :
  10 ≤ fuel →
  ∃ g k, dispatchAll fuel evs (newGame, 0) = Done (g, k) ∧
         announced g = checkResult g ∧
         (isGameActive g = true ↔ checkResult g = None).
Proof.
  intros Hf.
  destruct (dispatchAll_consistent fuel evs newGame 0 Hf newGame_consistent)
    as (g & k & E & _ & _ & _ & _ & _ & _ & Hres).
  exists g, k. split; [assumption|].
  destruct (isGameActive g).
  - destruct Hres as (-> & ->). split; [reflexivity|]. split; reflexivity.
  - destruct Hres as (r & -> & ->). split; [reflexivity|].
    split; discriminate.
Qed.

(** ** One move at a time *)

Lemma tryMoves_indices (human ai : string)
    (recur : Board → string → run (option move * Board)) (p : string) :
  ∀ (spots : list nat) (b : Board) (acc ms : list move) (b' : Board),
    tryMoves human ai recur p spots b acc = Done (ms, b') →
    ∀ m, m ∈ ms → m ∈ acc ∨ ∃ i, i ∈ spots ∧ index m = Some i.
Proof.
  induction spots as [|spot spots IH]; intros b acc ms b' H m Hm.
  - cbn in H. injection H as <- _. left. assumption.
  - cbn [tryMoves] in H.
    destruct (recur (arr_set b spot (Str p))
                (if String.eqb p ai then human else ai))
      as [[[mv|] after]| |]; cbn [bind] in H; try discriminate.
    destruct (IH _ _ _ _ H m Hm) as [Hacc | (i & Hi & Hidx)].
    + apply elem_of_app in Hacc as [Hacc | Hnew]; [left; assumption|].
      apply list_elem_of_singleton in Hnew. subst m.
      right. exists spot. split; [apply list_elem_of_here | reflexivity].
    + right. exists i. split; [apply list_elem_of_further|]; assumption.
Qed.

(** Whatever the fuel and the marks, an index [minimax] returns is that of
    an empty cell of the board it was given. *)
Lemma minimax_index_available (human ai : string) (fuel : nat) (b : Board)
    (p : string) (mv : move) (b' : Board) (i : nat) :
  minimax human ai fuel b p = Done (Some mv, b') → index mv = Some i →
  b !! i = Some (Str "").
Proof.
  intros H Hidx. destruct fuel as [|f]; [discriminate|].
  rewrite minimax_S in H.
  destruct (checkWinState b human);
    [injection H as <- _; discriminate|].
  destruct (checkWinState b ai);
    [injection H as <- _; discriminate|].
  destruct (Nat.eqb (length (availSpots b)) 0);
    [injection H as <- _; discriminate|].
  destruct (tryMoves human ai (minimax human ai f) p (availSpots b) b [])
    as [[ms after]| |] eqn:E; cbn [bind] in H; try discriminate.
  injection H as Hmv _.
  destruct (choose ai p ms) as [k|]; [|discriminate]. cbn [moveAt] in Hmv.
  apply list_elem_of_lookup_2 in Hmv.
  destruct (tryMoves_indices _ _ _ _ _ _ _ _ _ E mv Hmv)
    as [Hnil | (j & Hj & Hidx')]; [inversion Hnil|].
  rewrite Hidx in Hidx'. injection Hidx' as ->.
  apply elem_of_availSpots. assumption.
Qed.

(** X3: a click and a move of the computer never overwrite or erase a mark:
    either the session is left as it is, or exactly one cell that held ['']
    receives the mark of the mover (the current player for a click, the
    computer for its move); the mode and the players' marks stay. *)
Theorem moves_fill_one_empty_cell :
  (∀ n g,
     (handleCellClick n g).1 = g ∨
     ∃ i, board g !! i = Some (Str "") ∧
          board (handleCellClick n g).1
          = <[i := Str (currentPlayer g)]> (board g) ∧
          gameMode (handleCellClick n g).1 = gameMode g ∧
          humanPlayer (handleCellClick n g).1 = humanPlayer g ∧
          aiPlayer (handleCellClick n g).1 = aiPlayer g) ∧
  (∀ fuel g g',
     makeAiMove fuel g = Done g' →
     g' = g ∨
     ∃ i, board g !! i = Some (Str "") ∧
          board g' = <[i := Str (aiPlayer g)]> (board g) ∧
          gameMode g' = gameMode g ∧ humanPlayer g' = humanPlayer g ∧
          aiPlayer g' = aiPlayer g).
Proof.
  split.
  - intros n g.
    destruct (handleCellClick_cases n g) as [-> | (i & _ & Hi & _ & _ & ->)];
      [left; reflexivity|].
    right. exists i. cbn [fst]. split; [assumption|].
    rewrite makeMove_board.
    rewrite arr_set_inside by (eapply lookup_lt_Some; eassumption).
    split; [reflexivity|]. apply makeMove_settings.
  - intros fuel g g' H. unfold makeAiMove in H.
    destruct (isGameActive g); cbn [negb] in H;
      [|injection H as <-; left; reflexivity].
    destruct (minimax (humanPlayer g) (aiPlayer g) fuel (board g) (aiPlayer g))
      as [[[best|] after]| |] eqn:E; cbn [bind] in H; try discriminate.
    destruct (index best) as [i|] eqn:Ei; [|discriminate].
    injection H as <-.
    pose proof (minimax_restores _ _ _ _ _ _ _ E) as ->.
    pose proof (minimax_index_available _ _ _ _ _ _ _ _ E Ei) as Hi.
    right. exists i. split; [assumption|].
    rewrite with_board_same, makeMove_board.
    rewrite arr_set_inside by (eapply lookup_lt_Some; eassumption).
    split; [reflexivity|]. apply makeMove_settings.
Qed.

(** X4: once the game is over, cell clicks and timer firings change nothing,
    however many there are; only a reset or a change of mode starts a game
    again. *)
Theorem finished_game_ignores_play (fuel : nat) (evs : list event) :
  ∀ (g : game) (k : nat),
    isGameActive g = false → Forall isPlay evs →
    ∃ k', dispatchAll fuel evs (g, k) = Done (g, k').
Proof.
  induction evs as [|ev evs IH]; intros g k Hoff Hplay.
  - exists k. reflexivity.
  - apply Forall_cons in Hplay as [Hev Hplay].
    destruct ev as [n| | | | |]; cbn in Hev; try contradiction.
    + cbn [dispatchAll dispatch].
      destruct (handleCellClick_cases n g) as [-> | (i & _ & _ & Hon & _)];
        [|congruence].
      cbn [bind]. apply IH; assumption.
    + cbn [dispatchAll dispatch]. destruct k as [|k].
      * cbn [bind]. apply IH; assumption.
      * unfold makeAiMove. rewrite Hoff. cbn [negb bind].
        apply IH; assumption.
Qed.

(** X5: in the mode against the computer, a reset while the reply of the
    computer is pending does not cancel the reply: the timer fires on the
    fresh board, the computer marks a cell, the turn passes to the computer
    with no timer left, and from then on every click on a cell is
    ignored. *)
Theorem reset_with_pending_reply_locks_human (fuel : nat) (g : game) :
  10 ≤ fuel → gameMode g = "pvc"%string →
  humanPlayer g = "X"%string → aiPlayer g = "O"%string →
  ∃ i, i < 9 ∧
       dispatchAll fuel [ResetClick; TimerFires] (g, 1)
       = Done (lockedOut i, 0) ∧
       ∀ clicks, dispatchAll fuel (CellClick <$> clicks) (lockedOut i, 0)
                 = Done (lockedOut i, 0).
Proof.
  intros Hf Hmode Hh Ha.
  assert (Hfresh : consistent (resetGame g)).
  { unfold consistent, resetGame.
    cbn [humanPlayer aiPlayer gameMode currentPlayer board isGameActive
         announced].
    split; [assumption|]. split; [assumption|].
    split; [right; assumption|]. split; [left; reflexivity|].
    split; [reflexivity|]. split; [apply emptyBoard_cells|].
    split; reflexivity. }
  destruct (makeAiMove_cases fuel (resetGame g) Hf Hfresh)
    as [(Hoff & _) | (i & _ & Hi & Hrun)]; [discriminate|].
  cbn [board resetGame] in Hi.
  pose proof (lookup_lt_Some _ _ _ Hi) as Hlt. cbn in Hlt.
  exists i. split; [assumption|]. split.
  - cbn [dispatchAll dispatch bind]. rewrite Hrun. cbn [bind].
    do 2 f_equal. unfold resetGame. rewrite Hmode, Hh, Ha.
    do 9 (destruct i as [|i]; [reflexivity|]). lia.
  - induction clicks as [|n clicks IH]; [reflexivity|].
    cbn [fmap list_fmap dispatchAll dispatch].
    destruct (handleCellClick_cases n (lockedOut i))
      as [-> | (j & _ & _ & _ & Hturn & _)].
    + cbn [bind]. exact IH.
    + exfalso. apply Hturn. split; reflexivity.
Qed.

(** ** A user who waits for the computer *)

Lemma countMark_cons (v : value) (b : Board) (p : string) :
  countMark (v :: b) p
  = (if strict_eq v (Str p) then 1 else 0) + countMark b p.
Proof.
  unfold countMark. simpl. destruct (strict_eq v (Str p)); reflexivity.
Qed.

Lemma countMark_set_same (b : Board) (i : nat) (p : string) :
  p ≠ ""%string → b !! i = Some (Str "") →
  countMark (arr_set b i (Str p)) p = S (countMark b p).
Proof.
  intros Hp Hi. rewrite arr_set_inside by (eapply lookup_lt_Some; eassumption).
  revert i Hi. induction b as [|v b IH]; intros [|i] Hi; try discriminate.
  - simpl in Hi. injection Hi as ->. simpl.
    rewrite !countMark_cons, strict_eq_refl.
    assert (strict_eq (Str "") (Str p) = false) as ->
      by (apply strict_eq_false; congruence).
    reflexivity.
  - simpl in Hi. simpl. rewrite !countMark_cons.
    specialize (IH i Hi). lia.
Qed.

Lemma countMark_set_other (b : Board) (i : nat) (p q : string) :
  q ≠ p → q ≠ ""%string → b !! i = Some (Str "") →
  countMark (arr_set b i (Str p)) q = countMark b q.
Proof.
  intros Hqp Hq Hi.
  rewrite arr_set_inside by (eapply lookup_lt_Some; eassumption).
  revert i Hi. induction b as [|v b IH]; intros [|i] Hi; try discriminate.
  - simpl in Hi. injection Hi as ->. simpl.
    rewrite !countMark_cons.
    assert (strict_eq (Str p) (Str q) = false) as ->
      by (apply strict_eq_false; congruence).
    assert (strict_eq (Str "") (Str q) = false) as ->
      by (apply strict_eq_false; congruence).
    reflexivity.
  - simpl in Hi. simpl. rewrite !countMark_cons.
    specialize (IH i Hi). lia.
Qed.

(** A move of the player whose turn it is keeps the alternation of marks. *)
Lemma makeMove_turns (i : nat) (g : game) :
  consistent g → turnsAlternate g → isGameActive g = true →
  board g !! i = Some (Str "") →
  turnsAlternate (makeMove i (currentPlayer g) g).
Proof.
  intros _ Hturn Hon Hi. unfold turnsAlternate in *. rewrite Hon in Hturn.
  rewrite makeMove_board. unfold makeMove.
  destruct (checkResult _) as [r|];
    cbn [handleGameEnd with_currentPlayer with_board board currentPlayer
         isGameActive]; rewrite ?Hon;
    destruct Hturn as [(Hc & Hx) | (Hc & Hx)]; rewrite Hc;
    [left | right | right | left]; (split; [reflexivity|]);
    rewrite countMark_set_same, countMark_set_other;
    try assumption; try discriminate; congruence.
Qed.

(** A line completed by the move of the current player is credited to the
    player who holds it. *)
Lemma makeMove_winner (i : nat) (g : game) :
  consistent g → isGameActive g = true →
  winnerHoldsLine (makeMove i (currentPlayer g) g).
Proof.
  intros (_ & _ & _ & _ & _ & _ & Hres) Hon.
  rewrite Hon in Hres. destruct Hres as (Hann & Hnone).
  apply checkResult_None in Hnone as (Hline & _).
  rewrite findWinningLine_None in Hline.
  unfold winnerHoldsLine. rewrite makeMove_board. unfold makeMove.
  destruct (checkResult _) as [r|] eqn:E;
    cbn [handleGameEnd with_currentPlayer with_board announced];
    intros w l H; [|rewrite Hann in H; discriminate].
  injection H as ->. unfold checkResult in E.
  cbn [with_board board currentPlayer] in E.
  destruct (findWinningLine winningConditions
              (arr_set (board g) i (Str (currentPlayer g))))
    as [l0|] eqn:F.
  - injection E as <- <-.
    apply findWinningLine_Some in F
      as (pre & a & b' & c & post & Ewc & -> & Hc & _).
    assert (Hin : (a, b', c) ∈ winningConditions).
    { rewrite Ewc. apply elem_of_app. right. apply list_elem_of_here. }
    exists a, b', c. split; [reflexivity|]. split; [assumption|].
    apply new_line_is_movers; [apply Hline; assumption | assumption].
  - destruct (negb (includesEmpty _)); discriminate.
Qed.

Lemma makeMove_fair (i : nat) (g : game) :
  consistent g → turnsAlternate g → isGameActive g = true →
  board g !! i = Some (Str "") →
  turnsAlternate (makeMove i (currentPlayer g) g) ∧
  winnerHoldsLine (makeMove i (currentPlayer g) g).
Proof.
  intros Hg Hturn Hon Hi. split.
  - apply makeMove_turns; assumption.
  - apply makeMove_winner; assumption.
Qed.

Lemma resetGame_fair (g : game) : fairTurns (resetGame g).
Proof.
  unfold fairTurns, turnsAlternate, winnerHoldsLine, resetGame.
  cbn [board currentPlayer isGameActive gameMode announced].
  split; [left; split; reflexivity|]. split; [reflexivity|].
  intros w l H. discriminate.
Qed.

Lemma setMode_fair (mode : string) (g : game) :
  fairTurns g → fairTurns (setMode mode g).
Proof.
  intros Hg. unfold setMode.
  destruct (String.eqb (gameMode g) mode); [assumption|].
  apply resetGame_fair.
Qed.

(** An event followed by the timer it set keeps the session consistent and
    the turns fair. *)
Lemma dispatchSettled_fair (fuel : nat) (ev : event) (g : game) :
  10 ≤ fuel → consistent g → fairTurns g →
  ∃ g', dispatchSettled fuel ev g = Done g' ∧ consistent g' ∧ fairTurns g'.
Proof.
  intros Hf Hg Hfair. unfold dispatchSettled.
  destruct ev as [n| | | | |]; cbn [dispatch bind].
  - destruct (handleCellClick_cases n g)
      as [-> | (i & _ & Hi & Hon & _ & ->)].
    + cbn [bind dispatch fst]. exists g. auto.
    + set (g1 := makeMove i (currentPlayer g) g).
      assert (Hg1 : consistent g1).
      { apply makeMove_consistent; try assumption.
        destruct Hg as (_ & _ & _ & Hcur & _). assumption. }
      destruct (makeMove_fair i g Hg (proj1 Hfair) Hon Hi)
        as (Hturn1 & Hwin1).
      fold g1 in Hturn1, Hwin1.
      destruct (isGameActive g1 && String.eqb (gameMode g1) "pvc"
                && String.eqb (currentPlayer g1) (aiPlayer g1)) eqn:Esched.
      * apply andb_prop in Esched as [Esched Ecur].
        apply andb_prop in Esched as [Eon Emode].
        apply String.eqb_eq in Ecur, Emode.
        destruct Hg1 as (Hh1 & Ha1 & Hrest1).
        assert (Hg1 : consistent g1) by (split; [|split]; assumption).
        rewrite Ha1 in Ecur.
        cbn [bind dispatch].
        destruct (makeAiMove_cases fuel g1 Hf Hg1)
          as [(Hoff & _) | (j & _ & Hj & ->)]; [congruence|].
        cbn [bind fst]. rewrite <- Ecur.
        eexists. split; [reflexivity|].
        split; [apply makeMove_consistent; try assumption; right; congruence|].
        destruct (makeMove_fair j g1 Hg1 Hturn1 Eon Hj) as (Hturn2 & Hwin2).
        split; [assumption|]. split; [|assumption].
        intros _. unfold makeMove.
        destruct (checkResult
                    (with_board g1
                       (arr_set (board g1) j (Str (currentPlayer g1)))));
          cbn [handleGameEnd with_currentPlayer with_board currentPlayer
               isGameActive]; [discriminate|].
        intros _. rewrite Ecur. reflexivity.
      * cbn [bind dispatch fst]. exists g1. split; [reflexivity|].
        split; [assumption|]. split; [assumption|]. split; [|assumption].
        intros Hmode1 Hon1. rewrite Hon1 in Esched.
        apply String.eqb_eq in Hmode1. rewrite Hmode1 in Esched.
        cbn [andb] in Esched. apply String.eqb_neq in Esched.
        destruct Hg1 as (_ & Ha1 & _ & [Hc | Hc] & _); [assumption|].
        congruence.
  - cbn [fst]. exists (resetGame g).
    split; [reflexivity|]. split; [apply resetGame_consistent, Hg|].
    apply resetGame_fair.
  - cbn [fst]. exists (resetGame g).
    split; [reflexivity|]. split; [apply resetGame_consistent, Hg|].
    apply resetGame_fair.
  - cbn [fst]. eexists. split; [reflexivity|].
    split; [apply setMode_consistent; [left; reflexivity | assumption]|].
    apply setMode_fair. assumption.
  - cbn [fst]. eexists. split; [reflexivity|].
    split; [apply setMode_consistent; [right; reflexivity | assumption]|].
    apply setMode_fair. assumption.
  - cbn [fst]. exists g. auto.
Qed.

Lemma newGame_fair : fairTurns newGame.
Proof.
  unfold fairTurns, turnsAlternate, winnerHoldsLine, newGame.
  cbn [board currentPlayer isGameActive gameMode announced].
  split; [left; split; reflexivity|]. split; [reflexivity|].
  intros w l H. discriminate.
Qed.

Lemma dispatchAllSettled_fair (fuel : nat) (evs : list event) :
  ∀ g, 10 ≤ fuel → consistent g → fairTurns g →
       ∃ g', dispatchAllSettled fuel evs g = Done g' ∧
             consistent g' ∧ fairTurns g'.
Proof.
  induction evs as [|ev evs IH]; intros g Hf Hg Hfair.
  - exists g. auto.
  - destruct (dispatchSettled_fair fuel ev g Hf Hg Hfair)
      as (g1 & E & Hg1 & Hfair1).
    cbn [dispatchAllSettled]. rewrite E. cbn [bind]. apply IH; assumption.
Qed.

(** X6: when every reply of the computer comes before the next event, the
    marks alternate with ['X'] first in every session reached from a fresh
    object: there are as many ['X'] as ['O'] or one more, ['X'] is to move
    exactly when there are as many, and against the computer it is the
    human's turn whenever the game is on. *)
Theorem settled_play_alternates (fuel : nat) (evs : list event) :
  10 ≤ fuel →
  ∃ g, dispatchAllSettled fuel evs newGame = Done g ∧
       countMark (board g) "O" ≤ countMark (board g) "X" ∧
       countMark (board g) "X" ≤ S (countMark (board g) "O") ∧
       (isGameActive g = true →
        (currentPlayer g = "X"%string ↔
         countMark (board g) "X" = countMark (board g) "O")) ∧
       (gameMode g = "pvc"%string → isGameActive g = true →
        currentPlayer g = "X"%string).
Proof.
  intros Hf.
  destruct (dispatchAllSettled_fair fuel evs newGame Hf newGame_consistent
              newGame_fair) as (g & E & _ & Hturn & Hhuman & _).
  exists g. split; [assumption|]. unfold turnsAlternate in Hturn.
  destruct (isGameActive g).
  - destruct Hturn as [(Hc & Hx) | (Hc & Hx)]; rewrite Hx.
    + split; [lia|]. split; [lia|]. split; [|assumption].
      intros _. split; intros _; [reflexivity | assumption].
    + split; [lia|]. split; [lia|]. split; [|assumption].
      intros _. rewrite Hc. split; [discriminate | lia].
  - destruct Hturn as [(Hc & Hx) | (Hc & Hx)]; rewrite Hx;
      (split; [lia|]); (split; [lia|]); (split; [discriminate | assumption]).
Qed.

(** X7: when every reply of the computer comes before the next event, a
    finished game is either a draw on a full board without a completed line,
    or a win announced for the player who moved last, on a line of the table
    whose three cells hold that player's mark. *)
Theorem settled_play_winner_holds_line (fuel : nat) (evs : list event) :
  10 ≤ fuel →
  ∃ g, dispatchAllSettled fuel evs newGame = Done g ∧
       (isGameActive g = false →
        (announced g = Some (Result "Draw" None) ∧ (Str "" ∉ board g) ∧
         ∀ l, l ∈ winningConditions → ¬ lineCompleted (board g) l) ∨
        (∃ a b' c,
           announced g = Some (Result (currentPlayer g) (Some [a; b'; c])) ∧
           (a, b', c) ∈ winningConditions ∧
           lineHolds (board g) (a, b', c) (Str (currentPlayer g)))).
Proof.
  intros Hf.
  destruct (dispatchAllSettled_fair fuel evs newGame Hf newGame_consistent
              newGame_fair)
    as (g & E & (_ & _ & _ & _ & _ & _ & Hres) & _ & _ & Hwin).
  exists g. split; [assumption|]. intros Hoff. rewrite Hoff in Hres.
  destruct Hres as (r & Hann & Hcheck). unfold checkResult in Hcheck.
  destruct (findWinningLine winningConditions (board g)) as [l|] eqn:F.
  - right. injection Hcheck as <-.
    destruct (Hwin _ _ Hann) as (a & b' & c & -> & Hin & Hline).
    exists a, b', c. auto.
  - left. destruct (includesEmpty (board g)) eqn:Einc; [discriminate|].
    injection Hcheck as <-. split; [assumption|]. split.
    + intros Hin. apply includesEmpty_true in Hin. congruence.
    + apply findWinningLine_None. assumption.
Qed.

(** ** The two tests for the end of a game *)

Lemma winningConditions_bound (a b' c : nat) :
  (a, b', c) ∈ winningConditions → a < 9 ∧ b' < 9 ∧ c < 9.
Proof.
  unfold winningConditions. intros H.
  repeat (apply elem_of_cons in H as [H | H];
          [injection H as -> -> ->; lia|]).
  inversion H.
Qed.

(** X8: on a 9-cell board whose cells are [''] or one of the two players'
    marks, the search and the rules agree on when a game is over:
    [checkResult] returns [null] exactly when [minimax] goes on searching
    (nobody has a line for [checkWinState] and a cell is empty). *)
Theorem terminal_tests_agree (human ai : string) (g : game) :
  human ≠ ""%string → ai ≠ ""%string → length (board g) = 9 →
  Forall (λ v, v = Str "" ∨ v = Str human ∨ v = Str ai) (board g) →
  (checkResult g = None ↔ nonTerminal human ai (board g)).
Proof.
  intros Hh Ha Hlen Hcells. rewrite checkResult_None. split.
  - intros (Hline & Hinc). split; [|split].
    + apply no_line_no_winner; assumption.
    + apply no_line_no_winner; assumption.
    + apply includesEmpty_spots. assumption.
  - intros (Hnh & Hna & Hspots). split.
    + apply findWinningLine_None. intros [[a b'] c] Hin Hc.
      destruct (winningConditions_bound a b' c Hin) as (Hlt & _).
      pose proof Hc as (Hne & _ & _ & Hab & Hbc).
      destruct (lookup_lt_is_Some_2 (board g) a ltac:(lia)) as [v Hv].
      pose proof (arr_get_Some _ _ _ Hv) as Eg.
      apply list_elem_of_lookup_2 in Hv.
      rewrite Forall_forall in Hcells. specialize (Hcells v Hv).
      assert (Hholds : lineHolds (board g) (a, b', c) v).
      { cbn. repeat split; congruence. }
      destruct Hcells as [-> | [-> | ->]]; [congruence | |].
      * assert (checkWinState (board g) human = true) as E
          by (apply checkWinState_from_true; eauto).
        congruence.
      * assert (checkWinState (board g) ai = true) as E
          by (apply checkWinState_from_true; eauto).
        congruence.
    + apply includesEmpty_true.
      destruct (availSpots (board g)) as [|i l] eqn:E; [congruence|].
      assert (Hi : i ∈ availSpots (board g))
        by (rewrite E; apply list_elem_of_here).
      apply elem_of_availSpots in Hi.
      eapply list_elem_of_lookup_2. eassumption.
Qed.

(** ** What the search sees *)

Lemma winning_child_score (human ai : string) (b : Board) (j : nat) :
  human ≠ ""%string → ai ≠ ""%string → human ≠ ai →
  checkWinState b human = false →
  checkWinState (arr_set b j (Str ai)) ai = true →
  childScore human ai b ai j = 10%Z.
Proof.
  intros Hh Ha Hne Hnone Hwin. unfold childScore.
  apply (scoreAt_node human ai Hh Ha _ _ (Move None 10)
           (opponent_mark human ai Hh Ha ai)).
  unfold node. rewrite Hwin.
  assert (checkWinState (arr_set b j (Str ai)) human = false) as ->;
    [|reflexivity].
  destruct (checkWinState (arr_set b j (Str ai)) human) eqn:E; [|reflexivity].
  apply checkWinState_from_true in E as (l & Hl & Hline).
  apply other_mark_no_new_line in Hline; [|congruence].
  assert (checkWinState b human = true) as E
    by (apply checkWinState_from_true; exists l; split; assumption).
  congruence.
Qed.

(** X9: the search does not overlook a win in one move.  If the computer can
    complete a line at once, [minimax] for the computer returns score 10;
    if the human can, [minimax] for the human returns score -10.  (The cell
    returned need not be the completing one: among the cells of the best
    score the first is taken.) *)
Theorem minimax_sees_immediate_win (human ai : string) (fuel : nat)
    (b : Board) (j : nat) :
  human ≠ ""%string → ai ≠ ""%string → human ≠ ai →
  nonTerminal human ai b → length (availSpots b) < fuel →
  b !! j = Some (Str "") →
  (checkWinState (arr_set b j (Str ai)) ai = true →
   ∃ i, b !! i = Some (Str "") ∧
        minimax human ai fuel b ai = Done (Some (Move (Some i) 10), b)) ∧
  (checkWinState (arr_set b j (Str human)) human = true →
   ∃ i, b !! i = Some (Str "") ∧
        minimax human ai fuel b human
        = Done (Some (Move (Some i) (-10)), b)).
Proof.
  intros Hh Ha Hne Hnt Hf Hj. split; intros Hwin.
  - destruct (node_inner human ai Hh Ha b ai Ha Hnt)
      as (i & Hi & Hnode & Hmax & _).
    destruct (Hmax eq_refl j Hj) as (Hle & _).
    destruct Hnt as (Hnone & _).
    rewrite (winning_child_score human ai b j Hh Ha Hne Hnone Hwin) in Hle.
    pose proof (scoreAt_outcome human ai Hh Ha (arr_set b i (Str ai))
                  (opponent human ai ai) (opponent_mark human ai Hh Ha ai))
      as Hok.
    fold (childScore human ai b ai i) in Hok.
    assert (Hscore : childScore human ai b ai i = 10%Z)
      by (unfold outcomeScore in Hok; lia).
    exists i. split; [assumption|].
    rewrite minimax_node by assumption. rewrite Hnode, Hscore. reflexivity.
  - destruct (node_inner human ai Hh Ha b human Hh Hnt)
      as (i & Hi & Hnode & _ & Hmin).
    destruct (Hmin Hne j Hj) as (Hle & _).
    assert (Hchild : childScore human ai b human j = (-10)%Z).
    { unfold childScore.
      apply (scoreAt_node human ai Hh Ha _ _ (Move None (-10))
               (opponent_mark human ai Hh Ha human)).
      unfold node. rewrite Hwin. reflexivity. }
    rewrite Hchild in Hle.
    pose proof (scoreAt_outcome human ai Hh Ha (arr_set b i (Str human))
                  (opponent human ai human)
                  (opponent_mark human ai Hh Ha human)) as Hok.
    fold (childScore human ai b human i) in Hok.
    assert (Hscore : childScore human ai b human i = (-10)%Z)
      by (unfold outcomeScore in Hok; lia).
    exists i. split; [assumption|].
    rewrite minimax_node by assumption. rewrite Hnode, Hscore. reflexivity.
Qed.

(** ** Modes and empty cells *)


(** X11: the list of available spots holds exactly the indices of the cells
    equal to [''] - index 0 included - each once and in ascending order. *)
Theorem availSpots_lists_empty_cells (b : Board) :
  (∀ i, i ∈ availSpots b ↔ b !! i = Some (Str "")) ∧
  (∀ j k x y, availSpots b !! j = Some x → availSpots b !! k = Some y →
              j < k → x < y) ∧
  NoDup (availSpots b) ∧
  length (availSpots b) = countMark b "".
Proof.
  split; [apply elem_of_availSpots|]. split; [apply availSpots_ascending|].
  split.
  - apply NoDup_alt. intros j k x Hj Hk.
    destruct (Nat.lt_trichotomy j k) as [Hlt | [-> | Hgt]]; [|reflexivity|].
    + pose proof (availSpots_ascending b j k x x Hj Hk Hlt). lia.
    + pose proof (availSpots_ascending b k j x x Hk Hj Hgt). lia.
  - induction b as [|v b IH]; [reflexivity|].
    rewrite availSpots_cons, countMark_cons, length_app, length_fmap, IH.
    destruct (strict_eq v (Str "")); reflexivity.
Qed.

(** X12: in every session reached from a fresh object, in any order of
    events, an announced result is either [{ winner: 'Draw' }] without a
    line, or names ['X'] or ['O'] together with a line of three cell indices
    below 9 taken from the table: [handleGameEnd] tells the two apart by the
    winner, and [highlightWinningCells] is only handed existing cells. *)
Theorem announced_result_shape (fuel : nat) (evs : list event) :
  10 ≤ fuel →
  ∃ g k, dispatchAll fuel evs (newGame, 0) = Done (g, k) ∧
         ∀ r, announced g = Some r →
              (r = Result "Draw" None) ∨
              (∃ a b' c,
                 r = Result (currentPlayer g) (Some [a; b'; c]) ∧
                 (currentPlayer g = "X"%string ∨
                  currentPlayer g = "O"%string) ∧
                 (a, b', c) ∈ winningConditions ∧
                 a < 9 ∧ b' < 9 ∧ c < 9).
Proof.
  intros Hf.
  destruct (dispatchAll_consistent fuel evs newGame 0 Hf newGame_consistent)
    as (g & k & E & _ & _ & _ & Hcur & _ & _ & Hres).
  exists g, k. split; [assumption|]. intros r Hr.
  destruct (isGameActive g).
  - destruct Hres as (Hnone & _). congruence.
  - destruct Hres as (r' & Hann & Hcheck).
    assert (r' = r) as -> by congruence.
    unfold checkResult in Hcheck.
    destruct (findWinningLine winningConditions (board g)) as [l|] eqn:F.
    + right. injection Hcheck as <-.
      apply findWinningLine_Some in F
        as (pre & a & b' & c & post & Ewc & -> & _ & _).
      assert (Hin : (a, b', c) ∈ winningConditions).
      { rewrite Ewc. apply elem_of_app. right. apply list_elem_of_here. }
      exists a, b', c. split; [reflexivity|]. split; [assumption|].
      split; [assumption|]. apply winningConditions_bound. assumption.
    + left. destruct (negb (includesEmpty (board g))); [|discriminate].
      injection Hcheck as <-. reflexivity.
Qed.

(** X13: as long as the mode against the computer is never chosen, no
    timer is set and the search never runs: from a fresh object every such
    sequence of events ends, with any fuel, in the two-player mode with no
    timer pending. *)
Theorem two_player_mode_sets_no_timer (fuel : nat) (evs : list event) :
  PvcClick ∉ evs →
  ∃ g, dispatchAll fuel evs (newGame, 0) = Done (g, 0) ∧
       gameMode g = "pvp"%string.
Proof.
  assert (Hgen : ∀ g, gameMode g = "pvp"%string → PvcClick ∉ evs →
            ∃ g', dispatchAll fuel evs (g, 0) = Done (g', 0) ∧
                  gameMode g' = "pvp"%string).
  { induction evs as [|ev evs IH]; intros g Hmode Hno.
    - exists g. split; [reflexivity | assumption].
    - apply not_elem_of_cons in Hno as [Hev Hno].
      cbn [dispatchAll].
      destruct ev as [n| | | | |]; cbn [dispatch]; try congruence.
      + destruct (handleCellClick_cases n g)
          as [-> | (i & _ & _ & _ & _ & ->)].
        * cbn [bind]. apply IH; assumption.
        * pose proof (makeMove_settings i (currentPlayer g) g) as (Em & _).
          rewrite Em, Hmode.
          change (String.eqb "pvp" "pvc") with false.
          rewrite andb_false_r. cbn [andb bind].
          apply IH; [congruence | assumption].
      + cbn [bind]. apply IH; [assumption | assumption].
      + cbn [bind]. apply IH; [assumption | assumption].
      + cbn [bind]. apply IH; [|assumption].
        apply setMode_sets_mode.
      + cbn [bind]. apply IH; assumption. }
  intros Hno. apply Hgen; [reflexivity | assumption].
Qed.

(** ** The statements of this part at concrete sessions *)

Lemma session_never_fails_after_reset :
  10 ≤ 10 ∧
  ∃ g k, dispatchAll 10 [PvcClick; CellClick (Num 4); ResetClick; TimerFires]
           (newGame, 0) = Done (g, k) ∧
         length (board g) = 9.
Proof.
  split; [lia|].
  destruct (session_never_fails 10
              [PvcClick; CellClick (Num 4); ResetClick; TimerFires])
    as (g & k & E & Hlen & _); [lia|].
  exists g, k. split; assumption.
Defined.

Lemma announcement_agrees_after_click :
  10 ≤ 10 ∧
  ∃ g k, dispatchAll 10 [CellClick (Num 4); CellClick (Num 0)] (newGame, 0)
         = Done (g, k) ∧
         announced g = checkResult g.
Proof.
  split; [lia|].
  destruct (announcement_agrees_with_checkResult 10
              [CellClick (Num 4); CellClick (Num 0)])
    as (g & k & E & Hann & _); [lia|].
  exists g, k. split; assumption.
Defined.

Lemma moves_fill_one_empty_cell_top_row :
  makeAiMove 7 (Game topRowBoard "X" true "pvc" "O" "X" None)
  = Done (Game (arr_set topRowBoard 2 (Str "X")) "X" false "pvc" "O" "X"
               (Some (Result "X" (Some [0; 1; 2])))) ∧
  ((Game (arr_set topRowBoard 2 (Str "X")) "X" false "pvc" "O" "X"
         (Some (Result "X" (Some [0; 1; 2])))
    = Game topRowBoard "X" true "pvc" "O" "X" None) ∨
   ∃ i, topRowBoard !! i = Some (Str "") ∧
        arr_set topRowBoard 2 (Str "X") = <[i := Str "X"]> topRowBoard).
Proof.
  assert (E : makeAiMove 7 (Game topRowBoard "X" true "pvc" "O" "X" None)
              = Done (Game (arr_set topRowBoard 2 (Str "X")) "X" false "pvc"
                           "O" "X" (Some (Result "X" (Some [0; 1; 2])))))
    by (vm_compute; reflexivity).
  split; [exact E|].
  destruct moves_fill_one_empty_cell as (_ & Hai).
  destruct (Hai _ _ _ E) as [H | (i & Hi & Hb & _)]; [left; exact H|].
  right. exists i. split; [exact Hi | exact Hb].
Defined.

Lemma finished_game_ignores_play_top_row :
  isGameActive (Game topRowOfX "X" false "pvp" "X" "O"
                     (Some (Result "X" (Some [0; 1; 2])))) = false ∧
  Forall isPlay [CellClick (Num 5); TimerFires; CellClick NaN] ∧
  ∃ k', dispatchAll 10 [CellClick (Num 5); TimerFires; CellClick NaN]
          (Game topRowOfX "X" false "pvp" "X" "O"
                (Some (Result "X" (Some [0; 1; 2]))), 1)
        = Done (Game topRowOfX "X" false "pvp" "X" "O"
                     (Some (Result "X" (Some [0; 1; 2]))), k').
Proof.
  assert (Hplay : Forall isPlay [CellClick (Num 5); TimerFires; CellClick NaN])
    by (repeat constructor).
  split; [reflexivity|]. split; [exact Hplay|].
  apply (finished_game_ignores_play 10
           [CellClick (Num 5); TimerFires; CellClick NaN]
           (Game topRowOfX "X" false "pvp" "X" "O"
                 (Some (Result "X" (Some [0; 1; 2])))) 1);
    [reflexivity | exact Hplay].
Defined.

Lemma reset_with_pending_reply_locks_human_pvcGame :
  10 ≤ 10 ∧ gameMode pvcGame = "pvc"%string ∧
  ∃ i, i < 9 ∧
       dispatchAll 10 [ResetClick; TimerFires] (pvcGame, 1)
       = Done (lockedOut i, 0).
Proof.
  split; [lia|]. split; [reflexivity|].
  destruct (reset_with_pending_reply_locks_human 10 pvcGame)
    as (i & Hi & E & _); [lia | reflexivity | reflexivity | reflexivity |].
  exists i. split; assumption.
Defined.

Lemma settled_play_alternates_two_clicks :
  10 ≤ 10 ∧
  ∃ g, dispatchAllSettled 10 [PvcClick; CellClick (Num 4)] newGame = Done g ∧
       countMark (board g) "O" ≤ countMark (board g) "X".
Proof.
  split; [lia|].
  destruct (settled_play_alternates 10 [PvcClick; CellClick (Num 4)])
    as (g & E & Hle & _); [lia|].
  exists g. split; assumption.
Defined.

Lemma settled_play_winner_holds_line_pvp :
  10 ≤ 10 ∧
  ∃ g, dispatchAllSettled 10
         [CellClick (Num 0); CellClick (Num 3); CellClick (Num 1);
          CellClick (Num 4); CellClick (Num 2)] newGame = Done g.
Proof.
  split; [lia|].
  destruct (settled_play_winner_holds_line 10
              [CellClick (Num 0); CellClick (Num 3); CellClick (Num 1);
               CellClick (Num 4); CellClick (Num 2)])
    as (g & E & _); [lia|].
  exists g. exact E.
Defined.

Lemma terminal_tests_agree_new_game :
  "X"%string ≠ ""%string ∧ "O"%string ≠ ""%string ∧
  length (board newGame) = 9 ∧
  (checkResult newGame = None ↔ nonTerminal "X" "O" (board newGame)).
Proof.
  assert (Hx : "X"%string ≠ ""%string) by discriminate.
  assert (Ho : "O"%string ≠ ""%string) by discriminate.
  split; [exact Hx|]. split; [exact Ho|]. split; [reflexivity|].
  apply (terminal_tests_agree "X" "O" newGame Hx Ho eq_refl).
  repeat constructor.
Defined.

Lemma minimax_sees_immediate_win_top_row :
  "O"%string ≠ "X"%string ∧ nonTerminal "O" "X" topRowBoard ∧
  topRowBoard !! 2 = Some (Str "") ∧
  checkWinState (arr_set topRowBoard 2 (Str "X")) "X" = true ∧
  ∃ i, topRowBoard !! i = Some (Str "") ∧
       minimax "O" "X" 7 topRowBoard "X"
       = Done (Some (Move (Some i) 10), topRowBoard).
Proof.
  assert (Hx : "X"%string ≠ ""%string) by discriminate.
  assert (Ho : "O"%string ≠ ""%string) by discriminate.
  assert (Hne : "O"%string ≠ "X"%string) by discriminate.
  assert (Hnt : nonTerminal "O" "X" topRowBoard).
  { split; [reflexivity|]. split; [reflexivity|]. vm_compute. discriminate. }
  assert (Hlen : length (availSpots topRowBoard) < 7) by (vm_compute; lia).
  split; [exact Hne|]. split; [exact Hnt|]. split; [reflexivity|].
  split; [reflexivity|].
  destruct (minimax_sees_immediate_win "O" "X" 7 topRowBoard 2
              Ho Hx Hne Hnt Hlen eq_refl) as (Hai & _).
  apply Hai. reflexivity.
Defined.


Lemma availSpots_lists_empty_cells_top_row :
  topRowBoard !! 2 = Some (Str "") ∧ 2 ∈ availSpots topRowBoard.
Proof.
  split; [reflexivity|].
  apply (availSpots_lists_empty_cells topRowBoard). reflexivity.
Defined.

Lemma two_player_mode_sets_no_timer_clicks :
  (PvcClick ∉ [CellClick (Num 4); ResetClick; PvpClick; TimerFires]) ∧
  ∃ g, dispatchAll 0 [CellClick (Num 4); ResetClick; PvpClick; TimerFires]
         (newGame, 0) = Done (g, 0).
Proof.
  assert (Hno : PvcClick ∉ [CellClick (Num 4); ResetClick; PvpClick;
                            TimerFires]).
  { intros H. repeat (apply elem_of_cons in H as [H | H]; [discriminate|]).
    inversion H. }
  split; [exact Hno|].
  destruct (two_player_mode_sets_no_timer 0 _ Hno) as (g & E & _).
  exists g. exact E.
Defined.

Lemma announced_result_shape_after_click :
  10 ≤ 10 ∧
  ∃ g k, dispatchAll 10 [CellClick (Num 4)] (newGame, 0) = Done (g, k).
Proof.
  split; [lia|].
  destruct (announced_result_shape 10 [CellClick (Num 4)])
    as (g & k & E & _); [lia|].
  exists g, k. exact E.
Defined.

End TicTacToe.
